(** * An isometric city-builder portfolio: path generator, cyclist, grid editor

    A shallow embedding of the logic of [src/App.tsx] and
    [src/components/IsoMap.tsx]:

    - [PathGen]: [generateWindingPath] and its helper [connectPoints];
    - [Checkpoints]: [getCheckpointIndices];
    - [Cyclist]: the per-frame callback of the [Cyclist] component;
    - [Editor]: [createInitialState] and [handleTileClick];
    - [App]: the top-level state holder and its event handlers.

    Conventions.  Grid coordinates are JavaScript numbers holding integers;
    they are modelled as [Z].  The cyclist's progress and the frame time are
    JavaScript numbers holding fractions; they are modelled as exact
    rationals [Q] (rounding of doubles is not modelled).  [Math.random()] is
    an oracle: a stream [nat -> Q] of outcomes together with the index of the
    next unread outcome, threaded through the code in call order. *)

From Stdlib Require Import ZArith QArith Qround Bool Lia Lqa.
From stdpp Require Import base list gmap.
From Equations Require Import Equations.
From Equations.Prop Require Import Logic.

(** ** The random oracle *)

Definition Rand : Type := nat -> Q.

(** [Math.random()]: read the next outcome and advance the oracle. *)
Definition Math_random (rnd : Rand) (k : nat) : Q * nat := (rnd k, S k).

(** [a > b] on numbers. *)
Definition Qgtb (a b : Q) : bool := negb (Qle_bool a b).

(** ** Path generation ([src/App.tsx], lines 11-75) *)

Module PathGen.

Local Open Scope Z_scope.

Record Point : Type := mkPoint { px : Z; py : Z }.

#[global] Instance Point_eq_dec : EqDecision Point.
Proof. solve_decision. Defined.

(** The guard of the [while] loop: [curr.x !== p2.x || curr.y !== p2.y]. *)
Definition loop_cond (curr p2 : Point) : bool :=
  negb (px curr =? px p2) || negb (py curr =? py p2).

(** The choice of [moveX] (lines 43-52).  The oracle is read only when
    neither axis is the major one. *)
Definition choose_moveX (rnd : Rand) (k : nat) (dx dy : Z) : bool * nat :=
  if Z.abs dy <? Z.abs dx then (true, k)
  else if Z.abs dx <? Z.abs dy then (false, k)
  else let r := Math_random rnd k in (Qgtb (fst r) (1 # 2), snd r).

(** The move of one iteration (lines 54-61), given [moveX]. *)
Definition move (moveX : bool) (curr p2 : Point) : Point :=
  let dx := px p2 - px curr in
  let dy := py p2 - py curr in
  if moveX && negb (dx =? 0) then mkPoint (px curr + Z.sgn dx) (py curr)
  else if negb (dy =? 0) then mkPoint (px curr) (py curr + Z.sgn dy)
  else if negb (dx =? 0) then mkPoint (px curr + Z.sgn dx) (py curr)
  else curr.

(** One iteration of the loop body: the new [curr] and the oracle index. *)
Definition loop_body (rnd : Rand) (p2 curr : Point) (k : nat) : Point * nat :=
  let dx := px p2 - px curr in
  let dy := py p2 - py curr in
  let c := choose_moveX rnd k dx dy in
  (move (fst c) curr p2, snd c).

(** Remaining distance to the target waypoint. *)
Definition remaining (curr p2 : Point) : Z :=
  Z.abs (px p2 - px curr) + Z.abs (py p2 - py curr).

(** Case analysis on every integer comparison [a =? b] of the goal. *)
Ltac case_eqb :=
  repeat match goal with
         | |- context [(?a =? ?b)%Z] => destruct (Z.eqb_spec a b); simpl
         end.

Lemma move_remaining b curr p2 :
  loop_cond curr p2 = true ->
  remaining (move b curr p2) p2 = remaining curr p2 - 1.
Proof.
  unfold loop_cond, move, remaining. intros Hc.
  destruct (Z.eqb_spec (px curr) (px p2)), (Z.eqb_spec (py curr) (py p2));
    simpl in Hc; try discriminate;
    destruct b; simpl; case_eqb; simpl; lia.
Qed.

Lemma loop_body_remaining rnd p2 curr k :
  loop_cond curr p2 = true ->
  remaining (fst (loop_body rnd p2 curr k)) p2 = remaining curr p2 - 1.
Proof. intros Hc. unfold loop_body. simpl. by apply move_remaining. Qed.

Lemma remaining_nonneg curr p2 : 0 <= remaining curr p2.
Proof. unfold remaining. lia. Qed.

(** The [while] loop of [connectPoints] (lines 38-64), by well-founded
    recursion on the remaining distance. *)
Equations? connect_loop (rnd : Rand) (p2 curr : Point) (k : nat)
    (segment : list Point) : list Point * nat
    by wf (Z.to_nat (remaining curr p2)) lt :=
  connect_loop rnd p2 curr k segment with inspect (loop_cond curr p2) := {
    | exist _ true Hc =>
        connect_loop rnd p2 (fst (loop_body rnd p2 curr k))
          (snd (loop_body rnd p2 curr k))
          (segment ++ [fst (loop_body rnd p2 curr k)]);
    | exist _ false Hc => (segment, k) }.
Proof.
  rewrite move_remaining by done.
  assert (remaining curr p2 <> 0); [|pose proof (remaining_nonneg curr p2); lia].
  unfold loop_cond, remaining in *.
  destruct (Z.eqb_spec (px curr) (px p2)), (Z.eqb_spec (py curr) (py p2));
    simpl in *; try discriminate; lia.
Qed.

(** [connectPoints(p1, p2)]: the cells visited after [p1], up to [p2]. *)
Definition connectPoints (rnd : Rand) (k : nat) (p1 p2 : Point)
  : list Point * nat :=
  connect_loop rnd p2 p1 k [].

(** The same loop run with a bound on the number of iterations; [None]
    means the bound was hit while the guard still held. *)
Fixpoint connect_loop_fuel (fuel : nat) (rnd : Rand) (p2 curr : Point)
    (k : nat) (segment : list Point) : option (list Point * nat) :=
  if loop_cond curr p2 then
    match fuel with
    | O => None
    | S fuel' =>
        let r := loop_body rnd p2 curr k in
        connect_loop_fuel fuel' rnd p2 (fst r) (snd r) (segment ++ [fst r])
    end
  else Some (segment, k).

(** The intermediate waypoints (lines 17-29). *)
Definition waypoints (start end_ : Point) : list Point :=
  [ start;
    mkPoint 2 12; mkPoint 6 12; mkPoint 6 9; mkPoint 2 9; mkPoint 2 5;
    mkPoint 10 5; mkPoint 10 10; mkPoint 13 10; mkPoint 13 3;
    end_ ].

(** The [for] loop of lines 69-72 over consecutive waypoints. *)
Fixpoint connect_all (rnd : Rand) (k : nat) (ws : list Point)
    (fullPath : list Point) : list Point * nat :=
  match ws with
  | p1 :: ((p2 :: _) as rest) =>
      let s := connectPoints rnd k p1 p2 in
      connect_all rnd (snd s) rest (fullPath ++ fst s)
  | _ => (fullPath, k)
  end.

Definition generateWindingPath (rnd : Rand) (k : nat) (start end_ : Point)
  : list Point * nat :=
  connect_all rnd k (waypoints start end_) [start].

(** *** Shape of a path *)

(** The sum of the distances between consecutive waypoints. *)
Fixpoint route_length (ws : list Point) : Z :=
  match ws with
  | p1 :: ((p2 :: _) as rest) => remaining p1 p2 + route_length rest
  | _ => 0
  end.

(** Two cells differ by exactly one unit on exactly one axis. *)
Definition unit_step (a b : Point) : Prop :=
  (Z.abs (px b - px a) = 1 /\ py b = py a) \/
  (px b = px a /\ Z.abs (py b - py a) = 1).

(** [chain a l]: starting from [a], every cell of [l] is one unit step
    away from the cell before it. *)
Fixpoint chain (a : Point) (l : list Point) : Prop :=
  match l with
  | [] => True
  | b :: l' => unit_step a b /\ chain b l'
  end.

End PathGen.

(** ** Checkpoints ([src/components/IsoMap.tsx], lines 26-36) *)

Module Checkpoints.

Definition CHECKPOINT_COUNT : Z := 5.

(** [Math.floor(totalPathLength * (i / (CHECKPOINT_COUNT + 1)))] for
    [i = 1 .. CHECKPOINT_COUNT]. *)
Definition checkpointIndex (totalPathLength i : Z) : Z :=
  Qfloor (inject_Z totalPathLength
          * (inject_Z i / inject_Z (CHECKPOINT_COUNT + 1))).

Definition getCheckpointIndices (totalPathLength : Z) : list Z :=
  map (checkpointIndex totalPathLength) (seqZ 1 CHECKPOINT_COUNT).

End Checkpoints.

(** ** The cyclist ([src/components/IsoMap.tsx], lines 38-148)

    The component keeps [progress] in a state hook and
    [lastTriggeredCheckpoint] and [hasFinished] in refs.  The frame callback
    is modelled as a function from the hooks' current values to their next
    values and the callbacks it invokes, in call order; every frame sees the
    values written by the frame before it.  The parts of the callback that
    only move meshes (wheels, body, position, orientation) write none of the
    three and are left out. *)

Module Cyclist.

Record State : Type := mkState {
  progress : Q;
  lastTriggeredCheckpoint : Z;
  hasFinished : bool }.

(** The values the hooks are initialised with when the component mounts
    (lines 52-54). *)
Definition mount : State :=
  {| progress := 0; lastTriggeredCheckpoint := -1; hasFinished := false |}.

(** The callbacks of [CyclistProps]. *)
Inductive Event : Type :=
| onReachCheckpoint (checkpointIndex : Z)
| onFinish.

#[global] Instance Event_eq_dec : EqDecision Event.
Proof. solve_decision. Defined.

(** What one frame brings: whether [group.current] is set, the [isPaused]
    prop, and the elapsed time [delta]. *)
Record Frame : Type := mkFrame {
  groupReady : bool;
  isPaused : bool;
  delta : Q }.

(** [speed = 1.2]. *)
Definition speed : Q := 6 # 5.

(** [Array.prototype.indexOf]: the first position of [v], or [-1]. *)
Fixpoint indexOf_from (l : list Z) (v : Z) (i : Z) : Z :=
  match l with
  | [] => -1
  | u :: l' => if (u =? v)%Z then i else indexOf_from l' v (i + 1)
  end.

Definition indexOf (l : list Z) (v : Z) : Z := indexOf_from l v 0.

(** [Array.prototype.includes]. *)
Definition includes (l : list Z) (v : Z) : bool := existsb (Z.eqb v) l.

(** The movement branch, lines 98-108. *)
Definition advance (totalDistance : Z) (newProgress : Q) (st : State)
  : State * list Event :=
  if Qle_bool (inject_Z (totalDistance - 1)) newProgress then
    ({| progress := inject_Z (totalDistance - 1);
        lastTriggeredCheckpoint := lastTriggeredCheckpoint st;
        hasFinished := true |}, [onFinish])
  else
    ({| progress := newProgress;
        lastTriggeredCheckpoint := lastTriggeredCheckpoint st;
        hasFinished := hasFinished st |}, []).

(** The checkpoint trigger, lines 110-123. *)
Definition trigger (checkpointIndices : list Z) (newProgress : Q) (st : State)
  : State * list Event :=
  let currentIndex := Qfloor newProgress in
  let cpIndex := indexOf checkpointIndices currentIndex in
  if negb (cpIndex =? -1)%Z then
    if negb (lastTriggeredCheckpoint st =? currentIndex)%Z then
      ({| progress := progress st;
          lastTriggeredCheckpoint := currentIndex;
          hasFinished := hasFinished st |}, [onReachCheckpoint cpIndex])
    else (st, [])
  else
    if negb (includes checkpointIndices currentIndex) then
      ({| progress := progress st;
          lastTriggeredCheckpoint := -1;
          hasFinished := hasFinished st |}, [])
    else (st, []).

(** The frame callback. *)
Definition useFrame (path : list PathGen.Point) (f : Frame) (st : State)
  : State * list Event :=
  let checkpointIndices :=
    Checkpoints.getCheckpointIndices (Z.of_nat (length path)) in
  if negb (groupReady f) || (length path <? 2)%nat then (st, [])
  else if negb (isPaused f) && negb (hasFinished st) then
    let totalDistance := Z.of_nat (length path) in
    let newProgress := (progress st + speed * delta f)%Q in
    let a := advance totalDistance newProgress st in
    let t := trigger checkpointIndices newProgress a.1 in
    (t.1, a.2 ++ t.2)
  else (st, []).

(** A run of frames: per frame, the hooks after it and the callbacks it
    invoked. *)
Fixpoint run (path : list PathGen.Point) (fs : list Frame) (st : State)
  : list (State * list Event) :=
  match fs with
  | [] => []
  | f :: fs' =>
      let r := useFrame path f st in
      r :: run path fs' r.1
  end.

(** The hooks after a run of frames. *)
Definition final (path : list PathGen.Point) (fs : list Frame) (st : State)
  : State :=
  foldl (fun s f => (useFrame path f s).1) st fs.

(** All callbacks of a run, in call order. *)
Definition callbacks (r : list (State * list Event)) : list Event :=
  concat (map snd r).

(** *** Notions used to state the properties *)

Section Derived.

Variable path : list PathGen.Point.

(** The value [progress + speed * delta] a moving frame computes. *)
Definition newProgress (f : Frame) (s : State) : Q :=
  progress s + speed * delta f.

(** A frame moves the cyclist when the callback passes both guards. *)
Definition moves (f : Frame) (s : State) : bool :=
  groupReady f && negb (length path <? 2)%nat
  && negb (isPaused f) && negb (hasFinished s).

(** What holds of the hooks after any run of frames. *)
Record Inv (s : State) : Prop := mkInv {
  inv_finished :
    hasFinished s = true -> progress s = inject_Z (Z.of_nat (length path) - 1) /\ (2 <= length path)%nat;
  inv_running :
    hasFinished s = false -> (2 <= length path)%nat ->
    (progress s < inject_Z (Z.of_nat (length path) - 1))%Q;
  inv_guard :
    hasFinished s = false ->
    lastTriggeredCheckpoint s = (-1)%Z \/
    lastTriggeredCheckpoint s = Qfloor (progress s);
  inv_short : (length path < 2)%nat -> s = mount }.

End Derived.

(** The number of [onFinish] callbacks of a run. *)
Definition finishes (r : list (State * list Event)) : nat :=
  length (filter (fun e => e = onFinish) (callbacks r)).

(** The checkpoint at index [c] cannot fire in state [s]: the ride is
    over, or the cyclist is past [c], or it is at [c] with the guard set. *)
Definition blocked (c : Z) (s : State) : Prop :=
  hasFinished s = true \/
  (c < Qfloor (progress s))%Z \/
  (Qfloor (progress s) = c /\ lastTriggeredCheckpoint s = c).

(** The number of [onReachCheckpoint(k)] callbacks of a run. *)
Definition reaches (k : Z) (r : list (State * list Event)) : nat :=
  length (filter (fun e => e = onReachCheckpoint k) (callbacks r)).

End Cyclist.

(** ** The grid editor ([src/App.tsx], lines 77-118 and 147-165) *)

(** Modelled from the spec: the enumeration [BuildingType], declared in
    [types.ts], which is not among the sources.  The data model of the spec
    gives its members (None, Road, Residential, Commercial, Industrial,
    Park); they are the ones the toolbar of [UIOverlay] lists and the ones
    [App.tsx] and [IsoMap.tsx] use. *)
Module BuildingType.
Inductive t : Type := None | Road | Residential | Commercial | Industrial | Park.
#[global] Instance eq_dec : EqDecision t.
Proof. solve_decision. Defined.
End BuildingType.

Module Editor.

Import PathGen.

Definition GRID_SIZE : nat := 15.

Record TileData : Type := mkTile {
  tile_x : nat;
  tile_y : nat;
  buildingType : BuildingType.t }.

Abbreviation Grid := (list (list TileData)).

(** [grid[y][x]]. *)
Definition tileAt (grid : Grid) (x y : nat) : option TileData :=
  row ← grid !! y; row !! x.

(** [pathSet]: the keys [`${p.x},${p.y}`] of the path cells; a key is kept
    as the pair it spells. *)
Definition pathSet (path : list Point) : gset (Z * Z) :=
  list_to_set ((fun p => (px p, py p)) <$> path).

(** The body of the inner loop (lines 88-111): the type of tile [(x, y)]. *)
Definition initialType (rnd : Rand) (k : nat) (ps : gset (Z * Z)) (x y : nat)
  : BuildingType.t * nat :=
  if bool_decide ((Z.of_nat x, Z.of_nat y) ∈ ps) then (BuildingType.Road, k)
  else if (12 <=? x)%nat && (y <=? 2)%nat then (BuildingType.None, k)
  else
    let rand := Math_random rnd k in
    if Qgtb rand.1 (1 # 5) then
      let buildingRoll := Math_random rnd rand.2 in
      if Qgtb buildingRoll.1 (11 # 20) then
        (BuildingType.Residential, buildingRoll.2)
      else if Qgtb buildingRoll.1 (3 # 10) then
        (BuildingType.Commercial, buildingRoll.2)
      else (BuildingType.Park, buildingRoll.2)
    else (BuildingType.None, rand.2).

(** The inner loop over [x] (lines 87-114), for the columns [xs]. *)
Fixpoint initialRow (rnd : Rand) (k : nat) (ps : gset (Z * Z)) (y : nat)
    (xs : list nat) : list TileData * nat :=
  match xs with
  | [] => ([], k)
  | x :: xs' =>
      let t := initialType rnd k ps x y in
      let r := initialRow rnd t.2 ps y xs' in
      (mkTile x y t.1 :: r.1, r.2)
  end.

(** The outer loop over [y] (lines 85-116), for the rows [ys]. *)
Fixpoint initialRows (rnd : Rand) (k : nat) (ps : gset (Z * Z))
    (ys : list nat) : Grid * nat :=
  match ys with
  | [] => ([], k)
  | y :: ys' =>
      let r := initialRow rnd k ps y (seq 0 GRID_SIZE) in
      let g := initialRows rnd r.2 ps ys' in
      (r.1 :: g.1, g.2)
  end.

Record InitialState : Type := mkInitial { grid : Grid; path : list Point }.

Definition start : Point := mkPoint 0 14.
Definition end_ : Point := mkPoint 14 0.

Definition createInitialState (rnd : Rand) : InitialState :=
  let p := generateWindingPath rnd 0 start end_ in
  let g := initialRows rnd p.2 (pathSet p.1) (seq 0 GRID_SIZE) in
  {| grid := g.1; path := p.1 |}.

(** [initialState.path.some(p => p.x === x && p.y === y)]. *)
Definition isPath (path : list Point) (x y : nat) : bool :=
  existsb (fun p => (px p =? Z.of_nat x)%Z && (py p =? Z.of_nat y)%Z) path.

(** [newGrid[y][x] = { ...currentTile, buildingType: b }] followed by
    [setGrid(newGrid)]: the next grid. *)
Definition setTile (grid : Grid) (x y : nat) (currentTile : TileData)
    (b : BuildingType.t) : Grid :=
  match grid !! y with
  | Some row =>
      <[y := <[x := mkTile (tile_x currentTile) (tile_y currentTile) b]> row]>
        grid
  | None => grid
  end.

(** [handleTileClick(x, y)] with the current [selectedTool] and [grid]: the
    grid held by the state afterwards.  The handler is attached to the tiles
    the grid holds (IsoMap.tsx, line 599); for coordinates outside the grid
    the result is [None] (reading [grid[y][x]] or [currentTile.buildingType]
    throws then, and no tile of the grid is written). *)
Definition handleTileClick (path : list Point) (selectedTool : BuildingType.t)
    (grid : Grid) (x y : nat) : option Grid :=
  currentTile ← tileAt grid x y;
  if bool_decide (selectedTool = BuildingType.None) then
    if negb (isPath path x y) then
      Some (setTile grid x y currentTile BuildingType.None)
    else Some grid
  else if bool_decide (buildingType currentTile = BuildingType.None) then
    Some (setTile grid x y currentTile selectedTool)
  else Some grid.

(** A click: the tool selected when it happens and the tile it hits. *)
Record Click : Type := mkClick {
  tool : BuildingType.t;
  click_x : nat;
  click_y : nat }.

(** The grid after a sequence of clicks; a click outside the grid leaves the
    state as it is. *)
Fixpoint clicks (path : list Point) (cs : list Click) (grid : Grid) : Grid :=
  match cs with
  | [] => grid
  | c :: cs' =>
      clicks path cs'
        (default grid
           (handleTileClick path (tool c) grid (click_x c) (click_y c)))
  end.

(** The grid has [GRID_SIZE] rows of [GRID_SIZE] tiles. *)
Definition well_shaped (g : Grid) : Prop :=
  length g = GRID_SIZE /\ Forall (fun row => length row = GRID_SIZE) g.

(** Every tile on the path is a road. *)
Definition roads (path : list Point) (g : Grid) : Prop :=
  forall x y t,
    tileAt g x y = Some t -> isPath path x y = true ->
    buildingType t = BuildingType.Road.

End Editor.

(** ** The application state ([src/App.tsx], lines 120-183)

    [App] owns the grid, the selected tool, the active checkpoint and the
    [cycleKey]; [IsoMap] renders one [Cyclist] with [key={cycleKey}].  A
    component whose key differs from the one it was mounted with is
    replaced by a freshly mounted one when the tree is rendered again. *)

Module App.

Import PathGen Editor.

(** The mounted [Cyclist]: the key it was mounted with and its hooks. *)
Record Mounted : Type := mkMounted {
  key : nat;
  hooks : Cyclist.State }.

Record State : Type := mkApp {
  grid : Editor.Grid;
  selectedTool : BuildingType.t;
  activeCheckpointIndex : option Z;
  cycleKey : nat;
  cyclist : Mounted }.

Inductive Input : Type :=
| TileClick (x y : nat)
| SelectTool (type : BuildingType.t)
| ContinueCycle
| Restart
| AnimationFrame (groupReady : bool) (delta : Q).

(** The state after the first render (lines 121-134). *)
Definition init (i : Editor.InitialState) : State :=
  {| grid := Editor.grid i;
     selectedTool := BuildingType.Commercial;
     activeCheckpointIndex := Datatypes.None;
     cycleKey := 0;
     cyclist := mkMounted 0 Cyclist.mount |}.

Definition handleReachCheckpoint (index : Z) (s : State) : State :=
  mkApp (grid s) (selectedTool s) (Some index) (cycleKey s) (cyclist s).

Definition handleContinueCycle (s : State) : State :=
  mkApp (grid s) (selectedTool s) Datatypes.None (cycleKey s) (cyclist s).

(** [handleCycleFinish] only logs. *)
Definition handleCycleFinish (s : State) : State := s.

Definition handleRestart (s : State) : State :=
  mkApp (grid s) (selectedTool s) Datatypes.None (cycleKey s + 1) (cyclist s).

Definition handleTileClick (path : list Point) (x y : nat) (s : State)
  : State :=
  match Editor.handleTileClick path (selectedTool s) (grid s) x y with
  | Some g => mkApp g (selectedTool s) (activeCheckpointIndex s) (cycleKey s)
                (cyclist s)
  | Datatypes.None => s
  end.

(** The callbacks invoked by the cyclist, delivered to their handlers. *)
Definition deliver (e : Cyclist.Event) (s : State) : State :=
  match e with
  | Cyclist.onReachCheckpoint i => handleReachCheckpoint i s
  | Cyclist.onFinish => handleCycleFinish s
  end.

(** One frame of the mounted cyclist, with
    [isPaused = (activeCheckpointIndex !== null)]. *)
Definition frame (path : list Point) (groupReady : bool) (delta : Q)
    (s : State) : State :=
  let f := Cyclist.mkFrame groupReady
             (bool_decide (activeCheckpointIndex s <> Datatypes.None)) delta in
  let r := Cyclist.useFrame path f (hooks (cyclist s)) in
  foldl (fun s e => deliver e s)
    (mkApp (grid s) (selectedTool s) (activeCheckpointIndex s) (cycleKey s)
       (mkMounted (key (cyclist s)) r.1))
    r.2.

(** Rendering [<Cyclist key={cycleKey} ... />]: the mounted component is
    kept when its key is the current one and remounted otherwise. *)
Definition render (s : State) : State :=
  if bool_decide (key (cyclist s) = cycleKey s) then s
  else mkApp (grid s) (selectedTool s) (activeCheckpointIndex s) (cycleKey s)
         (mkMounted (cycleKey s) Cyclist.mount).

(** One input, handled and rendered. *)
Definition step (path : list Point) (i : Input) (s : State) : State :=
  render
    match i with
    | TileClick x y => handleTileClick path x y s
    | SelectTool type =>
        mkApp (grid s) type (activeCheckpointIndex s) (cycleKey s) (cyclist s)
    | ContinueCycle => handleContinueCycle s
    | Restart => handleRestart s
    | AnimationFrame groupReady delta => frame path groupReady delta s
    end.

Definition steps (path : list Point) (is_ : list Input) (s : State) : State :=
  foldl (fun s i => step path i s) s is_.

End App.

(** ** What is drawn ([src/components/IsoMap.tsx], lines 12-14, 126-147
    and 242-256) *)

Module View.

Import PathGen.

(** [Math.min] of two numbers. *)
Definition Math_min (a b : Q) : Q := if Qle_bool a b then a else b.

(** [path[i]] for a number [i] holding an integer; [None] stands for
    [undefined], which is what an index outside the array gives. *)
Definition at_ (path : list Point) (i : Z) : option Point :=
  if (i <? 0)%Z then None else path !! Z.to_nat i.

(** [WORLD_OFFSET = GRID_SIZE / 2 - 0.5]. *)
Definition WORLD_OFFSET : Q :=
  inject_Z (Z.of_nat Editor.GRID_SIZE) / 2 - (1 # 2).

(** [gridToWorld(x, y) = [x - WORLD_OFFSET, 0, y - WORLD_OFFSET]]. *)
Definition gridToWorld (x y : Q) : Q * Q * Q :=
  (x - WORLD_OFFSET, 0, y - WORLD_OFFSET)%Q.


(** The two path cells the cyclist is between and how far it is from the
    first to the second (lines 127-137). *)
Inductive Segment : Type :=
| Unmoved
  (** [path[nextIndex]] is undefined: the group is not moved *)
| Faulted
  (** [path[nextIndex]] is defined and [path[index]] is not: reading
      [p1.x] throws *)
| Between (p1 p2 : Point) (t : Q).

Definition segment (path : list Point) (progress : Q) : Segment :=
  let totalDistance := inject_Z (Z.of_nat (length path)) in
  let displayProgress := Math_min progress (totalDistance - (1001 # 1000)) in
  let index := Qfloor displayProgress in
  let nextIndex := (index + 1)%Z in
  match at_ path nextIndex with
  | None => Unmoved
  | Some p2 =>
      match at_ path index with
      | None => Faulted
      | Some p1 => Between p1 p2 (displayProgress - inject_Z index)
      end
  end.


(** A checkpoint marker: where it stands and whether it is the active
    one. *)
Record CheckpointNode : Type := mkNode {
  position : Q * Q * Q;
  isActive : bool }.

(** The marker [PathCheckpoints] draws at the cell [c] for the [i]-th
    checkpoint (lines 251-252). *)
Definition node (activeIndex : option Z) (i : nat) (c : Point)
  : CheckpointNode :=
  let w := gridToWorld (inject_Z (px c)) (inject_Z (py c)) in
  {| position := (w.1.1, 0%Q, w.2);
     isActive := bool_decide (activeIndex = Some (Z.of_nat i)) |}.

(** [PathCheckpoints]: nothing for an empty path; otherwise one entry
    per checkpoint index, which is empty when the path has no cell at
    that index. *)
Definition PathCheckpoints (path : list Point) (activeIndex : option Z)
  : option (list (option CheckpointNode)) :=
  if (length path =? 0)%nat then None
  else
    Some (imap (fun i pathIndex => node activeIndex i <$> at_ path pathIndex)
            (Checkpoints.getCheckpointIndices (Z.of_nat (length path)))).

End View.

(** ** Notions used to state further properties of the grid and of the
    application *)

Module Session.

Import Editor App.

(** Every tile carries the coordinates of the place it is stored at. *)
Definition placed (g : Grid) : Prop :=
  forall x y t, tileAt g x y = Some t -> tile_x t = x /\ tile_y t = y.

(** The tile clicks among a sequence of inputs, each with the tool that
    is selected when it happens. *)
Fixpoint clicks_of (inputs : list Input) (selectedTool : BuildingType.t)
  : list Click :=
  match inputs with
  | [] => []
  | TileClick x y :: rest =>
      mkClick selectedTool x y :: clicks_of rest selectedTool
  | SelectTool type :: rest => clicks_of rest type
  | _ :: rest => clicks_of rest selectedTool
  end.

(** The active checkpoint after the callbacks [es] have been delivered,
    when it was [a] before. *)
Fixpoint reported (es : list Cyclist.Event) (a : option Z) : option Z :=
  match es with
  | [] => a
  | Cyclist.onReachCheckpoint k :: es' => reported es' (Some k)
  | Cyclist.onFinish :: es' => reported es' a
  end.

(** The active checkpoint is none or one of the five. *)
Definition card_in_range (s : State) : Prop :=
  match activeCheckpointIndex s with
  | Some k => (0 <= k < Checkpoints.CHECKPOINT_COUNT)%Z
  | None => True
  end.

(** Inputs that neither dismiss the card nor restart the ride. *)
Definition keeps_card (i : Input) : bool :=
  match i with
  | ContinueCycle | Restart => false
  | _ => true
  end.

End Session.

(** ** Notions used to state further properties of a ride *)

Module Ride.

Import Cyclist.


(** The frame [f], run in state [s], moves the cyclist and computes a
    progress whose floor is [c]. *)
Definition lands (path : list PathGen.Point) (c : Z) (f : Frame) (s : State)
  : Prop :=
  moves path f s = true /\ Qfloor (newProgress f s) = c.

End Ride.

(** ** Notions used to state further properties of the path *)

Module Route.

Import PathGen.
Local Open Scope Z_scope.

(** [c] lies in the rectangle spanned by [a] and [b]. *)
Definition in_box (a b c : Point) : Prop :=
  Z.min (px a) (px b) <= px c <= Z.max (px a) (px b) /\
  Z.min (py a) (py b) <= py c <= Z.max (py a) (py b).

(** [a] and [b] share a coordinate. *)
Definition aligned (a b : Point) : Prop := px a = px b \/ py a = py b.

(** The cells between the waypoints (2,12) and (13,3), the first left out
    and the last included, along the eight legs that join the waypoints
    in between. *)
Definition fixed_cells : list Point :=
  [ mkPoint 3 12; mkPoint 4 12; mkPoint 5 12; mkPoint 6 12;
    mkPoint 6 11; mkPoint 6 10; mkPoint 6 9;
    mkPoint 5 9; mkPoint 4 9; mkPoint 3 9; mkPoint 2 9;
    mkPoint 2 8; mkPoint 2 7; mkPoint 2 6; mkPoint 2 5;
    mkPoint 3 5; mkPoint 4 5; mkPoint 5 5; mkPoint 6 5; mkPoint 7 5;
    mkPoint 8 5; mkPoint 9 5; mkPoint 10 5;
    mkPoint 10 6; mkPoint 10 7; mkPoint 10 8; mkPoint 10 9; mkPoint 10 10;
    mkPoint 11 10; mkPoint 12 10; mkPoint 13 10;
    mkPoint 13 9; mkPoint 13 8; mkPoint 13 7; mkPoint 13 6; mkPoint 13 5;
    mkPoint 13 4; mkPoint 13 3 ].

(** The path from (0,14) to (14,0) when the three ties it meets are
    broken towards the x axis ([true]) or the y axis ([false]). *)
Definition route_of (b0 b1 b2 : bool) : list Point :=
  [ mkPoint 0 14;
    if b0 then mkPoint 1 14 else mkPoint 0 13;
    mkPoint 1 13;
    if b1 then mkPoint 2 13 else mkPoint 1 12;
    mkPoint 2 12 ]
  ++ fixed_cells
  ++ [ mkPoint 13 2; mkPoint 13 1;
       if b2 then mkPoint 14 1 else mkPoint 13 0;
       mkPoint 14 0 ].

End Route.

(** ** Sample inputs *)

(** Two oracles: one always above one half, one always below. *)
Definition rnd_hi : Rand := fun _ => 9 # 10.
Definition rnd_lo : Rand := fun _ => 1 # 10.

(** The path drawn when every tie is broken towards the x axis. *)
Definition demo_path : list PathGen.Point :=
  (PathGen.generateWindingPath rnd_hi 0 (PathGen.mkPoint 0 14) (PathGen.mkPoint 14 0)).1.

Definition demo_clicks : list Editor.Click :=
  [Editor.mkClick BuildingType.None 0 14; Editor.mkClick BuildingType.Commercial 0 14;
   Editor.mkClick BuildingType.None 0 0; Editor.mkClick BuildingType.Park 0 0].

(** * Properties *)

Import PathGen.

Section PathShape.

Local Open Scope Z_scope.

Lemma last_cons_default (a b : Point) l :
  List.last (b :: l) a = List.last l b.
Proof.
  revert a b. induction l as [|c l IH]; intros a b; [done|].
  change (List.last (c :: l) a = List.last (c :: l) b).
  by rewrite !IH.
Qed.

Lemma last_app_default (a : Point) l1 l2 :
  List.last (l1 ++ l2) a = List.last l2 (List.last l1 a).
Proof.
  revert a. induction l1 as [|b l1 IH]; intros a; [done|].
  rewrite <- app_comm_cons, !last_cons_default. apply IH.
Qed.

Lemma chain_app a l1 l2 :
  chain a (l1 ++ l2) <-> chain a l1 /\ chain (List.last l1 a) l2.
Proof.
  revert a. induction l1 as [|b l1 IH]; intros a; [simpl; tauto|].
  rewrite last_cons_default. simpl. rewrite IH. tauto.
Qed.

Lemma chain_lookup a l i u v :
  chain a l -> (a :: l) !! i = Some u -> (a :: l) !! S i = Some v ->
  unit_step u v.
Proof.
  revert a i. induction l as [|b l IH]; intros a i Hch Hu Hv.
  - destruct i; simpl in *; discriminate.
  - destruct Hch as [Hab Hch]. destruct i as [|i]; simpl in *.
    + congruence.
    + eauto.
Qed.

Lemma move_unit_step b curr p2 :
  loop_cond curr p2 = true -> unit_step curr (move b curr p2).
Proof.
  unfold loop_cond, move, unit_step. intros Hc.
  destruct (Z.eqb_spec (px curr) (px p2)), (Z.eqb_spec (py curr) (py p2));
    simpl in Hc; try discriminate;
    destruct b; simpl; case_eqb; simpl; lia.
Qed.

Lemma loop_cond_false curr p2 : loop_cond curr p2 = false <-> curr = p2.
Proof.
  unfold loop_cond. destruct curr as [x y], p2 as [x2 y2]. simpl.
  destruct (Z.eqb_spec x x2), (Z.eqb_spec y y2); simpl; split;
    intros; try discriminate; try congruence.
Qed.

Lemma remaining_zero curr p2 : remaining curr p2 = 0 <-> curr = p2.
Proof.
  destruct curr as [x y], p2 as [x2 y2]. unfold remaining. simpl. split.
  - intros H. f_equal; lia.
  - intros [= -> ->]. lia.
Qed.

(** The loop unfolds as the [while] statement does. *)
Lemma connect_loop_while rnd p2 curr k segment :
  connect_loop rnd p2 curr k segment =
  if loop_cond curr p2 then
    connect_loop rnd p2 (loop_body rnd p2 curr k).1 (loop_body rnd p2 curr k).2
      (segment ++ [(loop_body rnd p2 curr k).1])
  else (segment, k).
Proof.
  funelim (connect_loop rnd p2 curr k segment); by rewrite Hc.
Qed.

(** What the loop computes: it extends [segment] by a chain of unit steps
    from [curr] that ends in [p2] and has as many cells as the remaining
    distance. *)
Lemma connect_loop_spec rnd p2 curr k segment :
  exists tail,
    (connect_loop rnd p2 curr k segment).1 = segment ++ tail /\
    chain curr tail /\
    List.last tail curr = p2 /\
    Z.of_nat (length tail) = remaining curr p2.
Proof.
  funelim (connect_loop rnd p2 curr k segment).
  - destruct H as (tail & Heq & Hch & Hlast & Hlen).
    exists ((loop_body rnd p2 curr k).1 :: tail).
    rewrite Heq, <- app_assoc. split; [done|]. split; [|split].
    + split; [by apply move_unit_step | done].
    + by rewrite last_cons_default.
    + rewrite loop_body_remaining in Hlen by done.
      rewrite length_cons. lia.
  - exists []. rewrite app_nil_r. simpl. repeat split.
    + by apply loop_cond_false.
    + symmetry. apply remaining_zero. by apply loop_cond_false.
Qed.

(** The bounded loop agrees with the loop as soon as the bound covers the
    remaining distance. *)
Lemma connect_loop_fuel_enough fuel rnd p2 curr k segment :
  remaining curr p2 <= Z.of_nat fuel ->
  connect_loop_fuel fuel rnd p2 curr k segment
  = Some (connect_loop rnd p2 curr k segment).
Proof.
  revert curr k segment. induction fuel as [|fuel IH]; intros curr k segment Hf;
    rewrite connect_loop_while; cbn [connect_loop_fuel];
    destruct (loop_cond curr p2) eqn:Hc; try done.
  - assert (curr = p2) as Heq.
    { apply remaining_zero. pose proof (remaining_nonneg curr p2). lia. }
    apply loop_cond_false in Heq. congruence.
  - apply IH. rewrite loop_body_remaining by done. lia.
Qed.


Lemma connect_all_cons rnd k p1 p2 rest fullPath :
  connect_all rnd k (p1 :: p2 :: rest) fullPath =
  connect_all rnd (connectPoints rnd k p1 p2).2 (p2 :: rest)
    (fullPath ++ (connectPoints rnd k p1 p2).1).
Proof. done. Qed.

Lemma route_length_cons p1 p2 rest :
  route_length (p1 :: p2 :: rest) = remaining p1 p2 + route_length (p2 :: rest).
Proof. done. Qed.

Lemma connect_all_spec rnd ws : forall k w0 fullPath,
  exists tail,
    (connect_all rnd k (w0 :: ws) fullPath).1 = fullPath ++ tail /\
    chain w0 tail /\
    List.last tail w0 = List.last ws w0 /\
    Z.of_nat (length tail) = route_length (w0 :: ws).
Proof.
  induction ws as [|w1 ws IH]; intros k w0 fullPath.
  - exists []. by rewrite app_nil_r.
  - rewrite connect_all_cons. unfold connectPoints.
    destruct (connect_loop_spec rnd w1 w0 k []) as (t1 & E1 & C1 & L1 & N1).
    destruct (IH (connect_loop rnd w1 w0 k []).2 w1
                (fullPath ++ (connect_loop rnd w1 w0 k []).1))
      as (t2 & E2 & C2 & L2 & N2).
    exists (t1 ++ t2). rewrite E2, E1, app_nil_l, <- app_assoc.
    split; [done|]. split; [|split].
    + apply chain_app. by rewrite L1.
    + by rewrite last_app_default, L1, L2, last_cons_default.
    + rewrite length_app, route_length_cons. lia.
Qed.

(** A generated path starts at [start], proceeds by unit steps, ends at
    [end_], and its length does not depend on the oracle. *)
Lemma generateWindingPath_spec rnd k start end_ :
  exists tail,
    (generateWindingPath rnd k start end_).1 = start :: tail /\
    chain start tail /\
    List.last tail start = end_ /\
    Z.of_nat (length tail) =
      remaining start (mkPoint 2 12) + 38 + remaining (mkPoint 13 3) end_.
Proof.
  unfold generateWindingPath, waypoints.
  destruct (connect_all_spec rnd
              [mkPoint 2 12; mkPoint 6 12; mkPoint 6 9; mkPoint 2 9;
               mkPoint 2 5; mkPoint 10 5; mkPoint 10 10; mkPoint 13 10;
               mkPoint 13 3; end_] k start [start]) as (tail & E & C & L & N).
  exists tail. split; [done|]. split; [done|]. split; [done|].
  rewrite N, !route_length_cons. unfold remaining at 2 3 4 5 6 7 8 9. simpl.
  lia.
Qed.

Lemma generateWindingPath_length rnd k start end_ :
  Z.of_nat (length (generateWindingPath rnd k start end_).1) =
  39 + remaining start (mkPoint 2 12) + remaining (mkPoint 13 3) end_.
Proof.
  destruct (generateWindingPath_spec rnd k start end_) as (tail & -> & _ & _ & N).
  rewrite length_cons. lia.
Qed.

Lemma last_default_Some (a : Point) l : last (a :: l) = Some (List.last l a).
Proof.
  revert a. induction l as [|b l IH]; intros a; [done|].
  rewrite last_cons_cons, IH. by rewrite last_cons_default.
Qed.

(** C3.  Every path that [generateWindingPath] returns for the start (0,14)
    and the end (14,0), whatever the oracle answers at the ties: any two
    consecutive cells differ by exactly one unit on exactly one axis, the
    first cell is the start and the last cell is the end. *)
Theorem generateWindingPath_connected (rnd : Rand) (k : nat) :
  let path := (generateWindingPath rnd k (mkPoint 0 14) (mkPoint 14 0)).1 in
  (forall (i : nat) (a b : Point),
      path !! i = Some a -> path !! S i = Some b -> unit_step a b) /\
  head path = Some (mkPoint 0 14) /\
  last path = Some (mkPoint 14 0).
Proof.
  intros path. subst path.
  destruct (generateWindingPath_spec rnd k (mkPoint 0 14) (mkPoint 14 0))
    as (tail & -> & C & L & _).
  split; [|split].
  - intros i a b Ha Hb. by eapply chain_lookup.
  - done.
  - by rewrite last_default_Some, L.
Qed.

(** C8.  The loop of [connectPoints] terminates for every pair of integer
    points: an iteration whose guard holds leaves one coordinate as it is
    and brings the other strictly closer to the target, so the remaining
    distance drops by one; the loop bounded by any number of iterations of
    at least the initial distance returns, with the result of
    [connectPoints], which has one cell per unit of distance. *)
Theorem connectPoints_terminates (rnd : Rand) (k : nat) (p1 p2 : Point) :
  (forall (curr : Point) (j : nat),
      loop_cond curr p2 = true ->
      let next := (loop_body rnd p2 curr j).1 in
      ((Z.abs (px p2 - px next) < Z.abs (px p2 - px curr) /\ py next = py curr)
       \/ (Z.abs (py p2 - py next) < Z.abs (py p2 - py curr)
           /\ px next = px curr))
      /\ remaining next p2 = remaining curr p2 - 1) /\
  (forall fuel : nat,
      remaining p1 p2 <= Z.of_nat fuel ->
      connect_loop_fuel fuel rnd p2 p1 k [] = Some (connectPoints rnd k p1 p2)) /\
  Z.of_nat (length (connectPoints rnd k p1 p2).1) = remaining p1 p2.
Proof.
  split; [|split].
  - intros curr j Hc next. split.
    + pose proof (move_unit_step
                    (choose_moveX rnd j (px p2 - px curr) (py p2 - py curr)).1
                    curr p2 Hc) as Hu.
      pose proof (loop_body_remaining rnd p2 curr j Hc) as Hr.
      subst next. unfold loop_body in *. cbn [fst] in *.
      unfold unit_step, remaining in *. lia.
    + by apply loop_body_remaining.
  - intros fuel Hf. by apply connect_loop_fuel_enough.
  - unfold connectPoints.
    destruct (connect_loop_spec rnd p2 p1 k []) as (tail & -> & _ & _ & N).
    done.
Qed.

(** C9.  [generateWindingPath] is not a function of its arguments alone: at
    a tie between the two axes the oracle is read and decides the axis, and
    two oracles give two different paths from (0,14) to (14,0). *)
Theorem generateWindingPath_not_deterministic :
  (forall (rnd : Rand) (k : nat) (dx dy : Z),
      dx <> 0 -> Z.abs dx = Z.abs dy ->
      choose_moveX rnd k dx dy = (Qgtb (rnd k) (1 # 2), S k)) /\
  (forall curr p2 : Point,
      px p2 - px curr <> 0 -> py p2 - py curr <> 0 ->
      move true curr p2 <> move false curr p2) /\
  exists rnd1 rnd2 : Rand,
    (generateWindingPath rnd1 0 (mkPoint 0 14) (mkPoint 14 0)).1 <>
    (generateWindingPath rnd2 0 (mkPoint 0 14) (mkPoint 14 0)).1.
Proof.
  split; [|split].
  - intros rnd k dx dy _ Habs. unfold choose_moveX, Math_random.
    destruct (Z.ltb_spec (Z.abs dy) (Z.abs dx)); [lia|].
    destruct (Z.ltb_spec (Z.abs dx) (Z.abs dy)); [lia|]. done.
  - intros curr p2 Hx Hy. unfold move.
    destruct (Z.eqb_spec (px p2 - px curr) 0); [done|].
    destruct (Z.eqb_spec (py p2 - py curr) 0); [done|].
    simpl. intros [= E _]. destruct (px p2 - px curr); simpl in E; lia.
  - exists rnd_hi, rnd_lo. vm_compute. discriminate.
Qed.

End PathShape.

Section CheckpointFacts.

Import Checkpoints.
Local Open Scope Z_scope.

(** The index is the integer quotient of [totalPathLength * i] by 6. *)
Lemma checkpointIndex_div (n i : Z) : checkpointIndex n i = (n * i) / 6.
Proof.
  unfold checkpointIndex, Qfloor, Qmult, Qdiv, Qinv, inject_Z. simpl.
  f_equal. lia.
Qed.

Lemma getCheckpointIndices_list (n : Z) :
  getCheckpointIndices n =
  [n * 1 / 6; n * 2 / 6; n * 3 / 6; n * 4 / 6; n * 5 / 6].
Proof.
  unfold getCheckpointIndices. cbn [seqZ]. simpl.
  by rewrite !checkpointIndex_div.
Qed.

(** For a path of at least six cells the indices increase strictly and lie
    strictly between [0] and the length. *)
Lemma getCheckpointIndices_interior (n : Z) :
  6 <= n ->
  let cps := getCheckpointIndices n in
  length cps = 5%nat /\
  (forall (i j : nat) (a b : Z),
      cps !! i = Some a -> cps !! j = Some b -> (i < j)%nat -> a < b) /\
  (forall a : Z, a ∈ cps -> 0 < a < n).
Proof.
  intros Hn cps. subst cps. rewrite getCheckpointIndices_list.
  pose proof (Z.mul_div_le (n * 1) 6 ltac:(lia)).
  pose proof (Z.mul_div_le (n * 2) 6 ltac:(lia)).
  pose proof (Z.mul_div_le (n * 3) 6 ltac:(lia)).
  pose proof (Z.mul_div_le (n * 4) 6 ltac:(lia)).
  pose proof (Z.mul_div_le (n * 5) 6 ltac:(lia)).
  pose proof (Z.mul_succ_div_gt (n * 1) 6 ltac:(lia)).
  pose proof (Z.mul_succ_div_gt (n * 2) 6 ltac:(lia)).
  pose proof (Z.mul_succ_div_gt (n * 3) 6 ltac:(lia)).
  pose proof (Z.mul_succ_div_gt (n * 4) 6 ltac:(lia)).
  pose proof (Z.mul_succ_div_gt (n * 5) 6 ltac:(lia)).
  split; [done|]. split.
  - intros i j a b Ha Hb Hij.
    destruct i as [|[|[|[|[|i]]]]]; simpl in Ha; try discriminate;
      destruct j as [|[|[|[|[|j]]]]]; simpl in Hb; try discriminate;
      try lia; injection Ha as <-; injection Hb as <-; lia.
  - intros a Ha. rewrite !elem_of_cons, elem_of_nil in Ha.
    destruct Ha as [->|[->|[->|[->|[->|[]]]]]]; lia.
Qed.

(** C4.  For every path that [generateWindingPath] produces, whatever the
    oracle answers, the five indices that [getCheckpointIndices] computes
    from its length are strictly increasing, and each of them is strictly
    greater than 0 and strictly less than the length of the path. *)
Theorem checkpoints_increasing_interior
    (rnd : Rand) (k : nat) (start end_ : Point) :
  let n := Z.of_nat (length (generateWindingPath rnd k start end_).1) in
  let cps := getCheckpointIndices n in
  length cps = 5%nat /\
  (forall (i j : nat) (a b : Z),
      cps !! i = Some a -> cps !! j = Some b -> (i < j)%nat -> a < b) /\
  (forall a : Z, a ∈ cps -> 0 < a < n).
Proof.
  intros n. apply getCheckpointIndices_interior. subst n.
  rewrite generateWindingPath_length.
  pose proof (remaining_nonneg start (mkPoint 2 12)).
  pose proof (remaining_nonneg (mkPoint 13 3) end_). lia.
Qed.

End CheckpointFacts.

Section CyclistFacts.

Import Checkpoints Cyclist.

Variable path : list Point.

Local Abbreviation n := (Z.of_nat (length path)).
Local Abbreviation last_index := (inject_Z (Z.of_nat (length path) - 1)).
Local Abbreviation cps := (getCheckpointIndices (Z.of_nat (length path))).
Local Abbreviation moves := (Cyclist.moves path).
Local Abbreviation Inv := (Cyclist.Inv path).
Local Abbreviation inv_finished := (Cyclist.inv_finished path).
Local Abbreviation inv_running := (Cyclist.inv_running path).
Local Abbreviation inv_guard := (Cyclist.inv_guard path).
Local Abbreviation inv_short := (Cyclist.inv_short path).

Lemma useFrame_still f s : moves f s = false -> useFrame path f s = (s, []).
Proof.
  unfold moves, useFrame.
  destruct (groupReady f), (length path <? 2)%nat, (isPaused f),
    (hasFinished s); simpl; done.
Qed.

Lemma useFrame_moves f s :
  moves f s = true ->
  useFrame path f s =
  ((trigger cps (newProgress f s) (advance n (newProgress f s) s).1).1,
   (advance n (newProgress f s) s).2
   ++ (trigger cps (newProgress f s) (advance n (newProgress f s) s).1).2).
Proof.
  unfold moves, useFrame, newProgress.
  destruct (groupReady f), (length path <? 2)%nat, (isPaused f),
    (hasFinished s); simpl; done.
Qed.

Lemma moves_true f s :
  moves f s = true ->
  (2 <= length path)%nat /\ isPaused f = false /\ hasFinished s = false.
Proof.
  unfold moves. destruct (Nat.ltb_spec (length path) 2), (groupReady f),
    (isPaused f), (hasFinished s); simpl; done.
Qed.

(** [trigger] writes only the guard. *)
Lemma trigger_progress l q s : progress (trigger l q s).1 = progress s.
Proof. unfold trigger. repeat case_match; done. Qed.

Lemma trigger_hasFinished l q s : hasFinished (trigger l q s).1 = hasFinished s.
Proof. unfold trigger. repeat case_match; done. Qed.

Lemma advance_guard m q s :
  lastTriggeredCheckpoint (advance m q s).1 = lastTriggeredCheckpoint s.
Proof. unfold advance. case_match; done. Qed.

Lemma indexOf_from_found l v i :
  (0 <= i)%Z -> (indexOf_from l v i = -1)%Z <-> v ∉ l.
Proof.
  revert i. induction l as [|u l IH]; intros i Hi; simpl.
  - split; [intros _; apply not_elem_of_nil | done].
  - rewrite not_elem_of_cons. destruct (Z.eqb_spec u v) as [->|Hne].
    + split; [lia | tauto].
    + rewrite IH by lia. split; [auto | tauto].
Qed.

Lemma indexOf_absent l v : (indexOf l v = -1)%Z <-> v ∉ l.
Proof. by apply indexOf_from_found. Qed.

Lemma includes_elem l v : includes l v = true <-> v ∈ l.
Proof.
  unfold includes. rewrite existsb_exists. split.
  - intros (u & Hu & ->%Z.eqb_eq). by apply list_elem_of_In.
  - intros Hv. exists v. split; [by apply list_elem_of_In | apply Z.eqb_refl].
Qed.

(** The callbacks of [advance] and [trigger]. *)
Lemma advance_events m q s :
  (advance m q s).2 =
  if Qle_bool (inject_Z (m - 1)) q then [onFinish] else [].
Proof. unfold advance. case_match; done. Qed.

Lemma trigger_events l q s :
  (trigger l q s).2 =
  if bool_decide (Qfloor q ∈ l /\ lastTriggeredCheckpoint s <> Qfloor q)
  then [onReachCheckpoint (indexOf l (Qfloor q))] else [].
Proof.
  unfold trigger.
  destruct (Z.eqb_spec (indexOf l (Qfloor q)) (-1)) as [E|E]; simpl.
  - apply indexOf_absent in E. rewrite bool_decide_eq_false_2 by tauto.
    case_match; done.
  - assert (Qfloor q ∈ l) as Hin.
    { destruct (decide (Qfloor q ∈ l)) as [|Hn]; [done|].
      by apply indexOf_absent in Hn. }
    destruct (Z.eqb_spec (lastTriggeredCheckpoint s) (Qfloor q)); simpl.
    + by rewrite bool_decide_eq_false_2 by tauto.
    + by rewrite bool_decide_eq_true_2 by tauto.
Qed.

(** The guard after [trigger]. *)
Lemma trigger_guard l q s :
  lastTriggeredCheckpoint (trigger l q s).1 =
  if bool_decide (Qfloor q ∈ l) then Qfloor q else (-1)%Z.
Proof.
  unfold trigger.
  destruct (Z.eqb_spec (indexOf l (Qfloor q)) (-1)) as [E|E]; simpl.
  - apply indexOf_absent in E. rewrite bool_decide_eq_false_2 by done.
    destruct (includes l (Qfloor q)) eqn:Hi; [|done].
    by apply includes_elem in Hi.
  - assert (Qfloor q ∈ l) as Hin.
    { destruct (decide (Qfloor q ∈ l)) as [|Hn]; [done|].
      by apply indexOf_absent in Hn. }
    rewrite bool_decide_eq_true_2 by done.
    destruct (Z.eqb_spec (lastTriggeredCheckpoint s) (Qfloor q)); simpl; done.
Qed.

Lemma advance_cases q s :
  (Qle_bool last_index q = true /\ (last_index <= q)%Q /\
   advance n q s =
   (mkState last_index (lastTriggeredCheckpoint s) true, [onFinish])) \/
  (Qle_bool last_index q = false /\ (q < last_index)%Q /\
   advance n q s =
   (mkState q (lastTriggeredCheckpoint s) (hasFinished s), [])).
Proof.
  unfold advance. destruct (Qle_bool last_index q) eqn:E; [left|right].
  - split; [done|]. split; [by apply Qle_bool_iff | done].
  - split; [done|]. split; [|done]. apply Qnot_le_lt. intros H.
    apply Qle_bool_iff in H. congruence.
Qed.

Lemma last_index_nonneg : (1 <= length path)%nat -> (0 <= last_index)%Q.
Proof. intros H. change 0%Q with (inject_Z 0). rewrite <- Zle_Qle. lia. Qed.

Lemma last_index_pos : (2 <= length path)%nat -> (0 < last_index)%Q.
Proof. intros H. change 0%Q with (inject_Z 0). rewrite <- Zlt_Qlt. lia. Qed.

Lemma Inv_mount : Inv mount.
Proof.
  split; simpl; try done.
  - intros _. apply last_index_pos.
  - by left.
Qed.

Lemma Inv_useFrame f s : Inv s -> Inv (useFrame path f s).1.
Proof.
  intros HI. destruct (moves f s) eqn:Hm.
  2: { by rewrite useFrame_still. }
  rewrite useFrame_moves by done. cbn [fst].
  destruct (moves_true f s Hm) as (Hlen & _ & Hfin).
  destruct (advance_cases (newProgress f s) s) as [(_ & Hq & ->)|(_ & Hq & ->)];
    cbn [fst]; split;
    rewrite ?trigger_progress, ?trigger_hasFinished, ?trigger_guard;
    cbn [progress hasFinished lastTriggeredCheckpoint]; try done; try lia.
  - congruence.
  - intros _. case_bool_decide; auto.
Qed.

Lemma final_snoc fs f s :
  final path (fs ++ [f]) s = (useFrame path f (final path fs s)).1.
Proof. unfold final. by rewrite foldl_snoc. Qed.

Lemma final_cons fs f s :
  final path (f :: fs) s = final path fs (useFrame path f s).1.
Proof. done. Qed.

Lemma Inv_final fs s : Inv s -> Inv (final path fs s).
Proof.
  revert s. induction fs as [|f fs IH]; intros s HI; [done|].
  rewrite final_cons. apply IH. by apply Inv_useFrame.
Qed.

Lemma run_app fs1 fs2 s :
  run path (fs1 ++ fs2) s = run path fs1 s ++ run path fs2 (final path fs1 s).
Proof.
  revert s. induction fs1 as [|f fs1 IH]; intros s; [done|].
  simpl. by rewrite IH.
Qed.

(** Once finished, no frame writes a hook or invokes a callback. *)
Lemma finished_silent fs s :
  hasFinished s = true -> Forall (fun t => t = (s, [])) (run path fs s).
Proof.
  intros Hf. induction fs as [|f fs IH]; simpl; [constructor|].
  assert (useFrame path f s = (s, [])) as E.
  { apply useFrame_still. unfold moves. rewrite Hf.
    by rewrite !andb_false_r. }
  rewrite E. by constructor.
Qed.

Lemma finished_callbacks fs s :
  hasFinished s = true -> callbacks (run path fs s) = [].
Proof.
  intros Hf. pose proof (finished_silent fs s Hf) as H.
  unfold callbacks. induction H as [|t l -> _ IH]; [done|]. simpl. done.
Qed.

(** The callbacks of a single frame. *)
Lemma useFrame_events f s :
  (useFrame path f s).2 =
  if moves f s then
    (if Qle_bool last_index (newProgress f s) then [onFinish] else [])
    ++ (if bool_decide (Qfloor (newProgress f s) ∈ cps /\
                        lastTriggeredCheckpoint s <> Qfloor (newProgress f s))
        then [onReachCheckpoint (indexOf cps (Qfloor (newProgress f s)))]
        else [])
  else [].
Proof.
  destruct (moves f s) eqn:Hm; [|by rewrite useFrame_still].
  rewrite useFrame_moves by done. cbn [snd].
  by rewrite advance_events, trigger_events, advance_guard.
Qed.

Lemma onFinish_in_frame f s :
  onFinish ∈ (useFrame path f s).2 <->
  moves f s = true /\ Qle_bool last_index (newProgress f s) = true.
Proof.
  rewrite useFrame_events. destruct (moves f s).
  - rewrite elem_of_app. destruct (Qle_bool _ _); case_bool_decide;
      rewrite ?elem_of_cons, ?elem_of_nil; intuition congruence.
  - rewrite elem_of_nil. intuition congruence.
Qed.

Lemma onReach_in_frame f s k :
  onReachCheckpoint k ∈ (useFrame path f s).2 <->
  moves f s = true /\ Qfloor (newProgress f s) ∈ cps /\
  lastTriggeredCheckpoint s <> Qfloor (newProgress f s) /\
  k = indexOf cps (Qfloor (newProgress f s)).
Proof.
  rewrite useFrame_events. destruct (moves f s).
  - rewrite elem_of_app. destruct (Qle_bool _ _); case_bool_decide;
      rewrite ?elem_of_cons, ?elem_of_nil; intuition congruence.
  - rewrite elem_of_nil. intuition congruence.
Qed.

Lemma callbacks_cons t r : callbacks (t :: r) = t.2 ++ callbacks r.
Proof. done. Qed.

Lemma callbacks_app r1 r2 : callbacks (r1 ++ r2) = callbacks r1 ++ callbacks r2.
Proof. unfold callbacks. by rewrite map_app, concat_app. Qed.

Lemma finishing_frame f s :
  moves f s = true -> Qle_bool last_index (newProgress f s) = true ->
  hasFinished (useFrame path f s).1 = true /\
  progress (useFrame path f s).1 = last_index.
Proof.
  intros Hm Hq. rewrite useFrame_moves by done. cbn [fst].
  rewrite trigger_hasFinished, trigger_progress.
  destruct (advance_cases (newProgress f s) s) as [(_ & _ & ->)|(E & _ & _)];
    [done | congruence].
Qed.

Lemma finishes_le_1 fs s : (finishes (run path fs s) <= 1)%nat.
Proof.
  revert s. induction fs as [|f fs IH]; intros s; [unfold finishes; simpl; lia|].
  cbn [run]. unfold finishes. rewrite callbacks_cons, filter_app, length_app.
  fold (finishes (run path fs (useFrame path f s).1)).
  rewrite useFrame_events. destruct (moves f s) eqn:Hm.
  - destruct (Qle_bool last_index (newProgress f s)) eqn:Hq.
    + destruct (finishing_frame f s Hm Hq) as [Hf _].
      unfold finishes. rewrite (finished_callbacks fs _ Hf).
      case_bool_decide; simpl; repeat case_decide; simpl; try done; lia.
    + specialize (IH (useFrame path f s).1).
      case_bool_decide; simpl; repeat case_decide; simpl; try done; lia.
  - specialize (IH (useFrame path f s).1). simpl. lia.
Qed.

Lemma final_finished fs s : hasFinished s = true -> final path fs s = s.
Proof.
  intros Hf. induction fs as [|f fs IH]; [done|].
  rewrite final_cons, useFrame_still; [done|].
  unfold Cyclist.moves. by rewrite Hf, !andb_false_r.
Qed.

(** A ride that starts unfinished reports its end once if it ends, and
    not at all if it does not. *)
Lemma finishes_count fs s :
  hasFinished s = false ->
  finishes (run path fs s) =
  if hasFinished (final path fs s) then 1%nat else 0%nat.
Proof.
  revert s. induction fs as [|f fs IH]; intros s Hs.
  - cbn. by rewrite Hs.
  - cbn [run]. unfold finishes. rewrite callbacks_cons, filter_app, length_app.
    fold (finishes (run path fs (useFrame path f s).1)). rewrite final_cons.
    destruct (moves f s) eqn:Hm.
    2: { rewrite useFrame_still by done. cbn [fst snd]. by rewrite IH. }
    destruct (Qle_bool last_index (newProgress f s)) eqn:Hq.
    + destruct (finishing_frame f s Hm Hq) as [Hf _].
      rewrite final_finished, Hf by done. unfold finishes.
      rewrite finished_callbacks by done. rewrite useFrame_events, Hm, Hq.
      case_bool_decide; cbn [app]; rewrite ?filter_cons, ?filter_nil;
        repeat case_decide; done.
    + assert (hasFinished (useFrame path f s).1 = false) as Hf.
      { rewrite useFrame_moves by done. cbn [fst].
        rewrite trigger_hasFinished.
        destruct (advance_cases (newProgress f s) s)
          as [(E & _ & _)|(_ & _ & ->)]; [congruence | done]. }
      rewrite IH by done. rewrite useFrame_events, Hm, Hq.
      case_bool_decide; cbn [app]; rewrite ?filter_cons, ?filter_nil;
        repeat case_decide; done.
Qed.

(** C5.  In a run of frames from the mounted cyclist, whatever the frames
    bring: [onFinish] is invoked at most once over the whole run, and
    exactly once when the run takes the progress to the last path index; a
    frame invokes it exactly when that frame takes the progress from below
    the last path index to the last path index; and from that frame on no
    frame changes the progress (nor the other hooks) or invokes a
    callback. *)
Theorem onFinish_once (fs1 : list Frame) (f : Frame) (fs2 : list Frame) :
  let s := final path fs1 mount in
  let r := useFrame path f s in
  let ride := fs1 ++ f :: fs2 in
  ((finishes (run path ride mount) <= 1)%nat /\
   ((2 <= length path)%nat ->
    finishes (run path ride mount) = 1%nat <->
    (progress (final path ride mount) == last_index)%Q)) /\
  (onFinish ∈ r.2 <->
   (progress s < last_index)%Q /\ (progress r.1 == last_index)%Q) /\
  (onFinish ∈ r.2 ->
   progress r.1 = last_index /\
   Forall (fun t => t = (r.1, [])) (run path fs2 r.1)).
Proof.
  intros s r ride. subst r.
  assert (Inv s) as HI by apply (Inv_final fs1 mount Inv_mount).
  assert (Inv (final path ride mount)) as HR
    by apply (Inv_final ride mount Inv_mount).
  clearbody s ride.
  split; [split; [apply finishes_le_1|]|split].
  - intros Hlen. rewrite finishes_count by done.
    destruct (hasFinished (final path ride mount)) eqn:Hf.
    + destruct (inv_finished _ HR Hf) as [-> _]. split; [reflexivity | done].
    + pose proof (inv_running _ HR Hf Hlen). split; [done | lra].
  - rewrite onFinish_in_frame. split.
    + intros [Hm Hq]. destruct (moves_true f s Hm) as (Hlen & _ & Hfin).
      destruct (finishing_frame f s Hm Hq) as [_ Hp].
      split; [by apply HI | by rewrite Hp].
    + intros [Hlt Heq]. destruct (moves f s) eqn:Hm.
      * split; [done|]. rewrite useFrame_moves in Heq by done.
        cbn [fst] in Heq. rewrite trigger_progress in Heq.
        destruct (advance_cases (newProgress f s) s)
          as [(E & _ & _)|(_ & Hq & E)]; [done|].
        rewrite E in Heq. cbn [fst progress] in Heq. lra.
      * rewrite useFrame_still in Heq by done. cbn [fst] in Heq. lra.
  - rewrite onFinish_in_frame. intros [Hm Hq].
    destruct (finishing_frame f s Hm Hq) as [Hf Hp].
    split; [done|]. by apply finished_silent.
Qed.

(** *** Bounds and monotonicity of the progress *)

Lemma Inv_upper s : path <> [] -> Inv s -> (progress s <= last_index)%Q.
Proof.
  intros Hne HI. destruct (Nat.ltb_spec (length path) 2) as [Hlt|Hge].
  - rewrite (inv_short s HI Hlt). apply last_index_nonneg.
    destruct path; [done | simpl; lia].
  - destruct (hasFinished s) eqn:Hf.
    + destruct (inv_finished s HI Hf) as [-> _]. lra.
    + pose proof (inv_running s HI Hf Hge). lra.
Qed.

Lemma useFrame_monotone f s :
  Inv s -> (0 <= delta f)%Q -> (progress s <= progress (useFrame path f s).1)%Q.
Proof.
  intros HI Hd. destruct (moves f s) eqn:Hm.
  2: { rewrite useFrame_still by done. cbn [fst]. lra. }
  destruct (moves_true f s Hm) as (Hlen & _ & Hfin).
  rewrite useFrame_moves by done. cbn [fst]. rewrite trigger_progress.
  destruct (advance_cases (newProgress f s) s) as [(_ & _ & ->)|(_ & _ & ->)];
    cbn [fst progress].
  - pose proof (inv_running s HI Hfin Hlen). lra.
  - unfold newProgress, speed. lra.
Qed.

Lemma final_nonneg fs s :
  Inv s -> Forall (fun f => 0 <= delta f)%Q fs -> (0 <= progress s)%Q ->
  (0 <= progress (final path fs s))%Q.
Proof.
  revert s. induction fs as [|f fs IH]; intros s HI Hfs Hs; [done|].
  inversion Hfs as [|? ? Hf Hfs']; subst. rewrite final_cons.
  apply IH; [by apply Inv_useFrame | done |].
  pose proof (useFrame_monotone f s HI Hf). lra.
Qed.

(** C1.  In a run of frames from the mounted cyclist over a non-empty path,
    with non-negative elapsed times and any pattern of pauses: before and
    after every frame the progress lies between 0 and the last path index;
    no frame decreases it; and a frame that moves the cyclist and would
    take the progress to the last index or beyond sets it to exactly the
    last index, where every later frame leaves it. *)
Theorem progress_bounded_monotone_clamped
    (fs1 : list Frame) (f : Frame) (fs2 : list Frame) :
  path <> [] ->
  Forall (fun f => 0 <= delta f)%Q (fs1 ++ [f]) ->
  let s := final path fs1 mount in
  let r := useFrame path f s in
  ((0 <= progress s <= last_index)%Q /\ (0 <= progress r.1 <= last_index)%Q) /\
  (progress s <= progress r.1)%Q /\
  (moves f s = true -> (last_index <= newProgress f s)%Q ->
   progress r.1 = last_index /\
   Forall (fun t => progress t.1 = last_index) (run path fs2 r.1)).
Proof.
  intros Hne Hfs s r.
  assert (Inv s) as HI by apply (Inv_final fs1 mount Inv_mount).
  assert (Inv r.1) as HI' by by apply Inv_useFrame.
  assert (0 <= progress s)%Q as H0.
  { apply final_nonneg; [apply Inv_mount | | done].
    by apply Forall_app in Hfs as [? _]. }
  assert (0 <= progress r.1)%Q as H1.
  { subst r s. rewrite <- final_snoc.
    apply final_nonneg; [apply Inv_mount | done | done]. }
  split; [|split].
  - split; (split; [done | by apply Inv_upper]).
  - apply useFrame_monotone; [done|].
    apply Forall_app in Hfs as [_ Hf]. by inversion Hf.
  - intros Hm Hq. apply Qle_bool_iff in Hq.
    destruct (finishing_frame f s Hm Hq) as [Hf Hp]. fold r in Hf, Hp.
    split; [done|].
    eapply Forall_impl; [by apply finished_silent|].
    by intros t ->.
Qed.

(** *** Checkpoints within a visit *)

Lemma cps_elem a :
  a ∈ cps -> exists i : Z, (1 <= i <= 5)%Z /\ a = (n * i / 6)%Z.
Proof.
  rewrite getCheckpointIndices_list, !elem_of_cons, elem_of_nil.
  intros [->|[->|[->|[->|[->|[]]]]]]; eexists; (split; [|done]); lia.
Qed.

Lemma cps_nonneg a : a ∈ cps -> (0 <= a)%Z.
Proof. intros (i & Hi & ->)%cps_elem. apply Z.div_pos; lia. Qed.

Lemma cps_below a : (1 <= length path)%nat -> a ∈ cps -> (a <= n - 1)%Z.
Proof.
  intros Hlen (i & Hi & ->)%cps_elem.
  assert (n * i / 6 < n)%Z; [|lia]. apply Z.div_lt_upper_bound; nia.
Qed.

(** While the floored progress stays at a checkpoint index for which the
    guard is set, no frame invokes [onReachCheckpoint]. *)
Lemma visit_quiet (c : Z) fs t :
  c ∈ cps ->
  hasFinished t = true \/ lastTriggeredCheckpoint t = c ->
  Forall (fun u => Qfloor (progress u.1) = c) (run path fs t) ->
  Forall (fun u => forall k, onReachCheckpoint k ∉ u.2) (run path fs t).
Proof.
  intros Hc. revert t. induction fs as [|f fs IH]; intros t Ht Hvisit;
    [constructor|].
  cbn [run] in *. apply Forall_cons in Hvisit as [Hhead Htail].
  destruct Ht as [Hfin|Hguard].
  { eapply Forall_impl; [apply (finished_silent (f :: fs) t Hfin)|].
    intros u -> k. apply not_elem_of_nil. }
  destruct (moves f t) eqn:Hm.
  2: { rewrite useFrame_still in * by done. constructor.
       - intros k. apply not_elem_of_nil.
       - apply IH; [by right | done]. }
  destruct (moves_true f t Hm) as (Hlen & _ & Hfin).
  assert (forall k, (onReachCheckpoint k ∉ (useFrame path f t).2)
          /\ (hasFinished (useFrame path f t).1 = true
              \/ lastTriggeredCheckpoint (useFrame path f t).1 = c)) as Hstep.
  { intros k. rewrite onReach_in_frame.
    rewrite useFrame_moves in Hhead |- * by done. cbn [fst] in Hhead |- *.
    rewrite trigger_progress in Hhead.
    rewrite trigger_hasFinished, trigger_guard.
    destruct (advance_cases (newProgress f t) t)
      as [(_ & Hq & E)|(_ & Hq & E)]; rewrite E in Hhead |- *;
      cbn [fst progress hasFinished] in Hhead |- *.
    - split; [|by left]. intros (_ & Hin & Hne & _).
      rewrite Qfloor_Z in Hhead. apply Qfloor_resp_le in Hq.
      rewrite Qfloor_Z in Hq. apply cps_below in Hin; lia.
    - split; [|right].
      + intros (_ & _ & Hne & _). congruence.
      + rewrite Hhead. by rewrite bool_decide_eq_true_2. }
  constructor.
  - intros k. apply Hstep.
  - apply IH; [apply (Hstep 0%Z) | done].
Qed.

(** C2.  In a run of frames from the mounted cyclist: a frame that moves
    the cyclist and takes the floored progress to a checkpoint index it was
    not at before invokes [onReachCheckpoint] for that checkpoint; a frame
    that invokes it has set the guard to that index; and as long as the
    floored progress stays where that frame left it, however many frames
    that takes and whether they are paused or not, no frame invokes
    [onReachCheckpoint] again. *)
Theorem checkpoint_once_per_visit
    (fs1 : list Frame) (f : Frame) (fs2 : list Frame) :
  let s := final path fs1 mount in
  let r := useFrame path f s in
  let c := Qfloor (newProgress f s) in
  (moves f s = true -> c ∈ cps -> Qfloor (progress s) <> c ->
   onReachCheckpoint (indexOf cps c) ∈ r.2) /\
  (forall k : Z,
      onReachCheckpoint k ∈ r.2 ->
      moves f s = true /\ c ∈ cps /\ k = indexOf cps c /\
      lastTriggeredCheckpoint r.1 = c) /\
  (forall k : Z,
      onReachCheckpoint k ∈ r.2 ->
      Forall (fun t => Qfloor (progress t.1) = Qfloor (progress r.1))
        (run path fs2 r.1) ->
      Forall (fun t => forall k', onReachCheckpoint k' ∉ t.2)
        (run path fs2 r.1)).
Proof.
  intros s r c. subst r.
  assert (Inv s) as HI by apply (Inv_final fs1 mount Inv_mount).
  clearbody s.
  assert (forall k, onReachCheckpoint k ∈ (useFrame path f s).2 ->
            lastTriggeredCheckpoint (useFrame path f s).1 = c) as Hguard.
  { intros k (Hm & Hin & _)%onReach_in_frame.
    rewrite useFrame_moves by done. cbn [fst].
    by rewrite trigger_guard, bool_decide_eq_true_2. }
  split; [|split].
  - intros Hm Hin Hne. apply onReach_in_frame. repeat split; try done.
    destruct (moves_true f s Hm) as (_ & _ & Hfin).
    destruct (inv_guard s HI Hfin) as [E|E]; rewrite E; [|done].
    apply cps_nonneg in Hin. fold c. lia.
  - intros k Hk. pose proof (Hguard k Hk) as Hg.
    apply onReach_in_frame in Hk as (Hm & Hin & _ & ->). done.
  - intros k Hk Hvisit. pose proof (Hguard k Hk) as Hg.
    apply onReach_in_frame in Hk as (Hm & Hin & _ & _).
    destruct (hasFinished (useFrame path f s).1) eqn:Hfin.
    + eapply Forall_impl; [by apply finished_silent|].
      intros t -> k'. apply not_elem_of_nil.
    + assert (Qfloor (progress (useFrame path f s).1) = c) as Hfloor.
      { rewrite useFrame_moves in Hfin |- * by done. cbn [fst] in Hfin |- *.
        rewrite trigger_hasFinished in Hfin. rewrite trigger_progress.
        destruct (advance_cases (newProgress f s) s)
          as [(_ & _ & E)|(_ & _ & E)]; rewrite E in Hfin |- *;
          [done | done]. }
      rewrite Hfloor in Hvisit. apply (visit_quiet c); auto.
Qed.

(** *** Checkpoints over a whole ride *)

Lemma indexOf_from_range l v i :
  (indexOf_from l v i = -1 \/ i <= indexOf_from l v i)%Z.
Proof.
  revert i. induction l as [|u l IH]; intros i; simpl; [by left|].
  destruct (u =? v)%Z; [right; lia|]. destruct (IH (i + 1)%Z); lia.
Qed.

Lemma indexOf_from_inj l v v' i :
  (0 <= i)%Z -> v ∈ l -> indexOf_from l v i = indexOf_from l v' i -> v = v'.
Proof.
  revert i. induction l as [|u l IH]; intros i Hi Hin; simpl.
  - by apply elem_of_nil in Hin.
  - destruct (Z.eqb_spec u v) as [Hv|Hv], (Z.eqb_spec u v') as [Hv'|Hv'].
    + congruence.
    + destruct (indexOf_from_range l v' (i + 1)); lia.
    + destruct (indexOf_from_range l v (i + 1)); lia.
    + apply (IH (i + 1)%Z); [lia|].
      apply elem_of_cons in Hin as [->|]; done.
Qed.

Lemma indexOf_inj l v v' : v ∈ l -> indexOf l v = indexOf l v' -> v = v'.
Proof. by apply indexOf_from_inj. Qed.

Lemma reaches_cons k t r : reaches k (t :: r) =
  (length (filter (fun e => e = onReachCheckpoint k) t.2) + reaches k r)%nat.
Proof. unfold reaches. by rewrite callbacks_cons, filter_app, length_app. Qed.

Lemma frame_reaches k f s :
  length (filter (fun e => e = onReachCheckpoint k) (useFrame path f s).2) =
  if bool_decide (onReachCheckpoint k ∈ (useFrame path f s).2) then 1%nat
  else 0%nat.
Proof.
  rewrite (bool_decide_ext _ _ (onReach_in_frame f s k)).
  rewrite useFrame_events. destruct (moves f s).
  2: { rewrite bool_decide_eq_false_2; [done | by intros [? _]]. }
  rewrite filter_app, length_app.
  assert (length (filter (fun e => e = onReachCheckpoint k)
                    (if Qle_bool last_index (newProgress f s)
                     then [onFinish] else [])) = 0%nat) as ->.
  { destruct (Qle_bool _ _); [|done].
    rewrite filter_cons, filter_nil. by case_decide. }
  case_bool_decide as H1.
  - rewrite filter_cons, filter_nil. case_decide as H2.
    + injection H2 as H2. rewrite bool_decide_eq_true_2; [done|].
      destruct H1. done.
    + rewrite bool_decide_eq_false_2; [done|]. intros (_ & _ & _ & ->). done.
  - rewrite filter_nil. rewrite bool_decide_eq_false_2; [done|].
    intros (_ & ? & ? & _). tauto.
Qed.

Lemma blocked_step c f s :
  c ∈ cps -> (0 <= delta f)%Q -> blocked c s ->
  (onReachCheckpoint (indexOf cps c) ∉ (useFrame path f s).2) /\
  blocked c (useFrame path f s).1.
Proof.
  intros Hc Hd Hb. destruct (moves f s) eqn:Hm.
  2: { rewrite useFrame_still by done. split; [apply not_elem_of_nil | done]. }
  destruct (moves_true f s Hm) as (_ & _ & Hfin).
  assert (Qfloor (progress s) <= Qfloor (newProgress f s))%Z as Hle.
  { apply Qfloor_resp_le. unfold newProgress, speed. lra. }
  destruct Hb as [Hb|Hb]; [congruence|]. split.
  - rewrite onReach_in_frame. intros (_ & Hin & Hne & Heq).
    apply indexOf_inj in Heq; [|done]. lia.
  - rewrite useFrame_moves by done. cbn [fst]. unfold blocked.
    rewrite trigger_hasFinished, trigger_progress, trigger_guard.
    destruct (advance_cases (newProgress f s) s) as [(_ & _ & ->)|(_ & _ & ->)];
      cbn [fst progress hasFinished]; [by left | right].
    destruct (decide (Qfloor (newProgress f s) = c)) as [E|E]; [right|left; lia].
    by rewrite E, bool_decide_eq_true_2.
Qed.

Lemma blocked_quiet c fs s :
  c ∈ cps -> Forall (fun f => 0 <= delta f)%Q fs -> blocked c s ->
  reaches (indexOf cps c) (run path fs s) = 0%nat.
Proof.
  intros Hc Hfs. revert s. induction Hfs as [|f fs Hf _ IH]; intros s Hb;
    [done|].
  cbn [run]. rewrite reaches_cons. cbn [snd].
  destruct (blocked_step c f s Hc Hf Hb) as [Hq Hb'].
  rewrite frame_reaches, bool_decide_eq_false_2 by done. by rewrite IH.
Qed.

(** With non-negative elapsed times the cyclist never comes back to an
    index it has left, so over a whole ride, from any state, each
    checkpoint is reported at most once. *)
Lemma checkpoint_once_per_ride (k : Z) fs s :
  Forall (fun f => 0 <= delta f)%Q fs ->
  (reaches k (run path fs s) <= 1)%nat.
Proof.
  intros Hfs. revert s. induction Hfs as [|f fs Hf Hfs IH]; intros s;
    [unfold reaches; simpl; lia|].
  cbn [run]. rewrite reaches_cons. cbn [snd]. rewrite frame_reaches.
  case_bool_decide as Hk; [|apply IH].
  pose proof Hk as (Hm & Hin & Hne & ->)%onReach_in_frame.
  rewrite blocked_quiet; [lia | done | done |].
  rewrite useFrame_moves by done. cbn [fst]. unfold blocked.
  rewrite trigger_hasFinished, trigger_progress, trigger_guard.
  destruct (advance_cases (newProgress f s) s) as [(_ & _ & ->)|(_ & _ & ->)];
    cbn [fst progress hasFinished]; [by left | right; right].
  by rewrite bool_decide_eq_true_2.
Qed.

End CyclistFacts.

Section EditorFacts.

Import Editor.

Lemma isPath_pathSet (path : list Point) (x y : nat) :
  isPath path x y = true <-> (Z.of_nat x, Z.of_nat y) ∈ pathSet path.
Proof.
  unfold isPath, pathSet. rewrite elem_of_list_to_set, list_elem_of_fmap.
  rewrite existsb_exists. split.
  - intros (p & Hin & Hp). exists p. apply list_elem_of_In in Hin.
    apply andb_prop in Hp as [->%Z.eqb_eq ->%Z.eqb_eq]. done.
  - intros (p & [= Hx Hy] & Hin). exists p. apply list_elem_of_In in Hin.
    by rewrite <- Hx, <- Hy, !Z.eqb_refl.
Qed.

(** *** The initial grid *)

Lemma initialType_path rnd k ps x y :
  (Z.of_nat x, Z.of_nat y) ∈ ps ->
  (initialType rnd k ps x y).1 = BuildingType.Road.
Proof. intros H. unfold initialType. by rewrite bool_decide_eq_true_2. Qed.

Lemma initialRow_lookup rnd ps y xs : forall k i t,
  (initialRow rnd k ps y xs).1 !! i = Some t ->
  exists k' x, xs !! i = Some x /\ t = mkTile x y (initialType rnd k' ps x y).1.
Proof.
  induction xs as [|x xs IH]; intros k i t; [done|].
  destruct i as [|i]; cbn [initialRow fst].
  - intros [= <-]. by exists k, x.
  - intros H. by apply IH in H.
Qed.

Lemma initialRow_length rnd ps y xs k :
  length (initialRow rnd k ps y xs).1 = length xs.
Proof.
  revert k. induction xs as [|x xs IH]; intros k; [done|].
  cbn [initialRow fst length]. by rewrite IH.
Qed.

Lemma initialRows_lookup rnd ps ys : forall k j row,
  (initialRows rnd k ps ys).1 !! j = Some row ->
  exists k' y,
    ys !! j = Some y /\ row = (initialRow rnd k' ps y (seq 0 GRID_SIZE)).1.
Proof.
  induction ys as [|y ys IH]; intros k j row; [done|].
  destruct j as [|j]; cbn [initialRows fst].
  - intros [= <-]. by exists k, y.
  - intros H. by apply IH in H.
Qed.

Lemma initialRows_length rnd ps ys k :
  length (initialRows rnd k ps ys).1 = length ys.
Proof.
  revert k. induction ys as [|y ys IH]; intros k; [done|].
  cbn [initialRows fst length]. by rewrite IH.
Qed.

(** Every tile of the initial grid carries its own coordinates, and is a
    road when its coordinates are on the path. *)
Lemma createInitialState_tile rnd x y t :
  tileAt (grid (createInitialState rnd)) x y = Some t ->
  tile_x t = x /\ tile_y t = y /\
  (isPath (path (createInitialState rnd)) x y = true ->
   buildingType t = BuildingType.Road).
Proof.
  unfold tileAt, createInitialState. cbn [grid path].
  intros (row & Hrow & Ht)%bind_Some.
  apply initialRows_lookup in Hrow as (k1 & y' & Hy & ->).
  apply initialRow_lookup in Ht as (k2 & x' & Hx & ->).
  apply lookup_seq in Hy as [-> _]. apply lookup_seq in Hx as [-> _].
  cbn [tile_x tile_y buildingType]. repeat split.
  intros Hp. apply initialType_path. by apply isPath_pathSet.
Qed.

(** *** The shape of the grid *)

Lemma well_shaped_tileAt g x y :
  well_shaped g -> (x < GRID_SIZE)%nat -> (y < GRID_SIZE)%nat ->
  is_Some (tileAt g x y).
Proof.
  intros [Hlen Hrows] Hx Hy. unfold tileAt.
  destruct (lookup_lt_is_Some_2 g y) as [row Hrow]; [lia|].
  rewrite Hrow. cbn. apply lookup_lt_is_Some_2.
  rewrite Forall_lookup in Hrows. rewrite (Hrows _ _ Hrow). done.
Qed.

Lemma createInitialState_shape rnd : well_shaped (grid (createInitialState rnd)).
Proof.
  unfold createInitialState. cbn [grid]. split.
  - by rewrite initialRows_length, length_seq.
  - apply Forall_lookup. intros j row Hrow.
    apply initialRows_lookup in Hrow as (k & y & _ & ->).
    by rewrite initialRow_length, length_seq.
Qed.

(** *** Writing one tile *)

Lemma tileAt_setTile_eq g x y t0 t b :
  tileAt g x y = Some t0 ->
  tileAt (setTile g x y t b) x y = Some (mkTile (tile_x t) (tile_y t) b).
Proof.
  unfold tileAt, setTile. intros (row & Hrow & Ht)%bind_Some. rewrite Hrow.
  rewrite list_lookup_insert_eq by by eapply lookup_lt_Some. cbn.
  apply list_lookup_insert_eq. by eapply lookup_lt_Some.
Qed.

Lemma tileAt_setTile_ne g x y t b x' y' :
  (x', y') <> (x, y) ->
  tileAt (setTile g x y t b) x' y' = tileAt g x' y'.
Proof.
  unfold tileAt, setTile. intros Hne. destruct (g !! y) as [row|] eqn:Hrow;
    [|done].
  destruct (decide (y' = y)) as [->|Hy].
  - rewrite list_lookup_insert_eq by by eapply lookup_lt_Some.
    rewrite Hrow. cbn. apply list_lookup_insert_ne. congruence.
  - by rewrite list_lookup_insert_ne.
Qed.

Lemma setTile_shape g x y t b : well_shaped g -> well_shaped (setTile g x y t b).
Proof.
  intros [Hlen Hrows]. unfold setTile.
  destruct (g !! y) as [row|] eqn:Hrow; [|done]. split.
  - by rewrite length_insert.
  - apply Forall_insert; [done|]. rewrite length_insert.
    rewrite Forall_lookup in Hrows. by eapply Hrows.
Qed.

(** *** What every reachable grid satisfies *)

Lemma setTile_roads path g x y t b :
  roads path g -> isPath path x y = false -> roads path (setTile g x y t b).
Proof.
  intros Hr Hp x' y' t' Ht' Hp'. apply (Hr x' y'); [|done].
  rewrite tileAt_setTile_ne in Ht'; [done|]. intros [= -> ->]. congruence.
Qed.

(** What [handleTileClick] returns for a tile of the grid. *)
Lemma handleTileClick_tile path tool g x y t :
  tileAt g x y = Some t ->
  handleTileClick path tool g x y =
  Some (if bool_decide (tool = BuildingType.None) then
          if isPath path x y then g
          else setTile g x y t BuildingType.None
        else if bool_decide (buildingType t = BuildingType.None) then
          setTile g x y t tool
        else g).
Proof.
  intros Ht. unfold handleTileClick. rewrite Ht. cbn.
  repeat case_bool_decide; destruct (isPath path x y); done.
Qed.

Lemma handleTileClick_inv path tool g x y g' :
  well_shaped g /\ roads path g ->
  handleTileClick path tool g x y = Some g' ->
  well_shaped g' /\ roads path g'.
Proof.
  intros [Hs Hr] Hc. destruct (tileAt g x y) as [t|] eqn:Ht.
  2: { unfold handleTileClick in Hc. by rewrite Ht in Hc. }
  rewrite (handleTileClick_tile _ _ _ _ _ t Ht) in Hc. injection Hc as <-.
  destruct (isPath path x y) eqn:Hp; repeat case_bool_decide;
    try done; split; try by apply setTile_shape.
  - pose proof (Hr x y t Ht Hp). congruence.
  - by apply setTile_roads.
  - by apply setTile_roads.
Qed.

Lemma clicks_inv path cs g :
  well_shaped g /\ roads path g ->
  well_shaped (clicks path cs g) /\ roads path (clicks path cs g).
Proof.
  revert g. induction cs as [|c cs IH]; intros g Hg; [done|].
  cbn [clicks]. apply IH.
  destruct (handleTileClick path (tool c) g (click_x c) (click_y c))
    as [g'|] eqn:Hc; [|done].
  by eapply handleTileClick_inv.
Qed.

Lemma reachable_inv rnd cs :
  let i := createInitialState rnd in
  well_shaped (clicks (path i) cs (grid i)) /\
  roads (path i) (clicks (path i) cs (grid i)).
Proof.
  intros i. apply clicks_inv. split; [apply createInitialState_shape|].
  intros x y t Ht Hp. by apply (createInitialState_tile rnd x y t).
Qed.

(** C10.  In every grid reached from the initial grid by tile clicks, with
    any tool selected at each click, every tile whose coordinates are on
    the generated path is a road. *)
Theorem path_tiles_are_roads
    (rnd : Rand) (cs : list Click) (x y : nat) :
  let i := createInitialState rnd in
  let g := clicks (path i) cs (grid i) in
  (x < GRID_SIZE)%nat -> (y < GRID_SIZE)%nat ->
  isPath (path i) x y = true ->
  exists t, tileAt g x y = Some t /\ buildingType t = BuildingType.Road.
Proof.
  intros i g Hx Hy Hp. destruct (reachable_inv rnd cs) as [Hs Hr].
  destruct (well_shaped_tileAt g x y Hs Hx Hy) as [t Ht].
  exists t. split; [done|]. by apply (Hr x y).
Qed.

(** C6.  In every grid reached from the initial grid by tile clicks, a
    click on a tile with a building tool writes the selected type to that
    tile, and nothing else, when the tile's type is [None] and the tile is
    not on the path, and leaves the grid as it is otherwise; a click with
    the bulldoze tool writes [None] to that tile, and nothing else, when
    the tile is not on the path, and leaves the grid as it is otherwise. *)
Theorem click_rules
    (rnd : Rand) (cs : list Click) (tool : BuildingType.t) (x y : nat) :
  let i := createInitialState rnd in
  let g := clicks (path i) cs (grid i) in
  (x < GRID_SIZE)%nat -> (y < GRID_SIZE)%nat ->
  exists t g',
    tileAt g x y = Some t /\
    handleTileClick (path i) tool g x y = Some g' /\
    let written b :=
      tileAt g' x y = Some (mkTile (tile_x t) (tile_y t) b) /\
      forall x' y', (x', y') <> (x, y) -> tileAt g' x' y' = tileAt g x' y' in
    (tool <> BuildingType.None ->
     buildingType t = BuildingType.None /\ isPath (path i) x y = false ->
     written tool) /\
    (tool <> BuildingType.None ->
     ~ (buildingType t = BuildingType.None /\ isPath (path i) x y = false) ->
     g' = g) /\
    (tool = BuildingType.None -> isPath (path i) x y = false ->
     written BuildingType.None) /\
    (tool = BuildingType.None -> isPath (path i) x y = true -> g' = g).
Proof.
  intros i g Hx Hy. destruct (reachable_inv rnd cs) as [Hs Hr].
  fold i in Hs, Hr. fold g in Hs, Hr.
  destruct (well_shaped_tileAt g x y Hs Hx Hy) as [t Ht].
  eexists t, _. split; [done|].
  split; [by apply handleTileClick_tile|]. cbv zeta.
  assert (forall b,
    tileAt (setTile g x y t b) x y = Some (mkTile (tile_x t) (tile_y t) b) /\
    forall x' y', (x', y') <> (x, y) ->
      tileAt (setTile g x y t b) x' y' = tileAt g x' y') as Hw.
  { intros b. split; [by eapply tileAt_setTile_eq|].
    intros x' y' Hne. by apply tileAt_setTile_ne. }
  split; [|split; [|split]]; intros Htool Hcase.
  - rewrite bool_decide_eq_false_2 by done. destruct Hcase as [Hn Hp].
    rewrite bool_decide_eq_true_2 by done. apply Hw.
  - rewrite bool_decide_eq_false_2 by done. case_bool_decide as Hn; [|done].
    destruct (isPath (path i) x y) eqn:Hp; [|tauto].
    pose proof (Hr x y t Ht Hp). congruence.
  - rewrite bool_decide_eq_true_2, Hcase by done. apply Hw.
  - by rewrite bool_decide_eq_true_2, Hcase by done.
Qed.

End EditorFacts.

Section AppFacts.

Import App.

Variable path : list Point.

(** After every input the mounted cyclist carries the current key. *)
Lemma render_key s : key (cyclist (render s)) = cycleKey (render s).
Proof. unfold render. by case_bool_decide. Qed.

Lemma step_key i s : key (cyclist (step path i s)) = cycleKey (step path i s).
Proof. apply render_key. Qed.

Lemma steps_snoc is_ i s :
  steps path (is_ ++ [i]) s = step path i (steps path is_ s).
Proof. unfold steps. by rewrite foldl_snoc. Qed.

Lemma steps_key is_ s :
  key (cyclist s) = cycleKey s ->
  key (cyclist (steps path is_ s)) = cycleKey (steps path is_ s).
Proof.
  induction is_ as [|i is_ IH] using rev_ind; intros Hs; [done|].
  rewrite steps_snoc. apply step_key.
Qed.

(** Restarting a rendered state. *)
Lemma step_Restart s :
  key (cyclist s) = cycleKey s ->
  step path Restart s =
  mkApp (grid s) (selectedTool s) None (cycleKey s + 1)
    (mkMounted (cycleKey s + 1) Cyclist.mount).
Proof.
  intros Hk. unfold step, render, handleRestart. cbn.
  rewrite bool_decide_eq_false_2 by lia. done.
Qed.

End AppFacts.

(** C7.  The restart signal, in whatever state a sequence of inputs (tile
    clicks, tool selections, frames, continues and earlier restarts) has
    left the application: the cyclist's progress is 0 again, its finished
    flag and its last-triggered guard are cleared, no checkpoint is active,
    and the grid is the one from before the restart. *)
Theorem restart_resets (rnd : Rand) (inputs : list App.Input) :
  let i := Editor.createInitialState rnd in
  let s := App.steps (Editor.path i) inputs (App.init i) in
  let s' := App.step (Editor.path i) App.Restart s in
  Cyclist.progress (App.hooks (App.cyclist s')) = 0%Q /\
  Cyclist.hasFinished (App.hooks (App.cyclist s')) = false /\
  Cyclist.lastTriggeredCheckpoint (App.hooks (App.cyclist s')) = (-1)%Z /\
  App.activeCheckpointIndex s' = None /\
  App.grid s' = App.grid s.
Proof.
  intros i s s'. subst s'. rewrite step_Restart; [done|].
  by apply steps_key.
Qed.

(** * Concrete runs *)

Section Runs.

Import Cyclist Editor.

Example demo_path_length : length demo_path = 47%nat.
Proof. vm_compute. reflexivity. Qed.

Example demo_path_head : take 5 demo_path =
  [mkPoint 0 14; mkPoint 1 14; mkPoint 1 13; mkPoint 2 13; mkPoint 2 12].
Proof. vm_compute. reflexivity. Qed.

Example demo_checkpoints :
  Checkpoints.getCheckpointIndices 47 = [7; 15; 23; 31; 39]%Z.
Proof. vm_compute. reflexivity. Qed.

(** Six frames of one second each reach the first checkpoint, at index 7. *)
Example demo_first_checkpoint :
  map snd (run demo_path (repeat (mkFrame true false 1) 6) mount) =
  [[]; []; []; []; []; [onReachCheckpoint 0]].
Proof. vm_compute. reflexivity. Qed.

(** A frame of fifty seconds finishes the ride at index 46. *)
Example demo_finish :
  useFrame demo_path (mkFrame true false 50) mount =
  (mkState (inject_Z 46) (-1) true, [onFinish]).
Proof. vm_compute. reflexivity. Qed.

(** C1 at a concrete ride: a short frame, a paused frame, then a frame
    long enough to reach the end, and one frame more. *)
Lemma progress_bounded_monotone_clamped_witness :
  let fs1 := [mkFrame true false (1 # 60); mkFrame true true (1 # 60)] in
  let f := mkFrame true false 50 in
  let fs2 := [mkFrame true false 1] in
  let s := final demo_path fs1 mount in
  let r := useFrame demo_path f s in
  (demo_path <> [] /\ Forall (fun f => 0 <= delta f)%Q (fs1 ++ [f]) /\
   moves demo_path f s = true /\ (inject_Z 46 <= newProgress f s)%Q) /\
  ((0 <= progress s <= inject_Z (Z.of_nat (length demo_path) - 1))%Q /\
   (0 <= progress r.1 <= inject_Z (Z.of_nat (length demo_path) - 1))%Q) /\
  (progress s <= progress r.1)%Q /\
  (moves demo_path f s = true ->
   (inject_Z (Z.of_nat (length demo_path) - 1) <= newProgress f s)%Q ->
   progress r.1 = inject_Z (Z.of_nat (length demo_path) - 1) /\
   Forall (fun t => progress t.1 = inject_Z (Z.of_nat (length demo_path) - 1))
     (run demo_path fs2 r.1)).
Proof.
  assert (demo_path <> []) as Hne by (vm_compute; discriminate).
  assert (Forall (fun f => 0 <= delta f)%Q
            ([mkFrame true false (1 # 60); mkFrame true true (1 # 60)]
             ++ [mkFrame true false 50])) as Hfs
    by (repeat constructor; unfold Qle; simpl; lia).
  split.
  - split; [exact Hne|]. split; [exact Hfs|]. split; [vm_compute; reflexivity|].
    vm_compute. discriminate.
  - exact (progress_bounded_monotone_clamped demo_path
             [mkFrame true false (1 # 60); mkFrame true true (1 # 60)]
             (mkFrame true false 50) [mkFrame true false 1] Hne Hfs).
Defined.

(** C10 at the start tile (0,14), after clicks that try to clear it and
    to build on it. *)
Lemma path_tiles_are_roads_witness :
  let i := createInitialState rnd_hi in
  let g := clicks (path i) demo_clicks (grid i) in
  exists t, tileAt g 0 14 = Some t /\ buildingType t = BuildingType.Road.
Proof.
  apply (path_tiles_are_roads rnd_hi demo_clicks 0 14).
  - unfold GRID_SIZE. lia.
  - unfold GRID_SIZE. lia.
  - vm_compute. reflexivity.
Defined.

(** C6 at the corner tile (0,0), which is off the path, with the bulldoze
    tool. *)
Lemma click_rules_witness :
  let i := createInitialState rnd_hi in
  let g := clicks (path i) demo_clicks (grid i) in
  isPath (path i) 0 0 = false /\
  exists t g',
    tileAt g 0 0 = Some t /\
    handleTileClick (path i) BuildingType.None g 0 0 = Some g' /\
    let written b :=
      tileAt g' 0 0 = Some (mkTile (tile_x t) (tile_y t) b) /\
      forall x' y', (x', y') <> (0, 0)%nat -> tileAt g' x' y' = tileAt g x' y' in
    (BuildingType.None <> BuildingType.None ->
     buildingType t = BuildingType.None /\ isPath (path i) 0 0 = false ->
     written BuildingType.None) /\
    (BuildingType.None <> BuildingType.None ->
     ~ (buildingType t = BuildingType.None /\ isPath (path i) 0 0 = false) ->
     g' = g) /\
    (BuildingType.None = BuildingType.None -> isPath (path i) 0 0 = false ->
     written BuildingType.None) /\
    (BuildingType.None = BuildingType.None -> isPath (path i) 0 0 = true ->
     g' = g).
Proof.
  split; [vm_compute; reflexivity|].
  apply (click_rules rnd_hi demo_clicks BuildingType.None 0 0);
    unfold GRID_SIZE; lia.
Defined.

(** The clicks above: the path tile (0,14) is neither cleared nor built
    on; the tile (0,0) is cleared and then becomes a park. *)
Example demo_clicks_result :
  let i := createInitialState rnd_hi in
  let g := clicks (path i) demo_clicks (grid i) in
  buildingType <$> tileAt g 0 14 = Some BuildingType.Road /\
  buildingType <$> tileAt g 0 0 = Some BuildingType.Park.
Proof. vm_compute. split; reflexivity. Qed.

(** The application: six frames of one second reach the first checkpoint
    and pause the ride there; frames no longer move the cyclist until the
    card is dismissed; a restart remounts the cyclist and keeps the grid. *)
Example demo_app_pause_restart :
  let i := createInitialState rnd_hi in
  let ride := repeat (App.AnimationFrame true 1) 6 in
  let s1 := App.steps (path i) ride (App.init i) in
  let s2 := App.steps (path i) [App.AnimationFrame true 1] s1 in
  let s3 := App.steps (path i) [App.ContinueCycle; App.AnimationFrame true 1] s2 in
  let s4 := App.step (path i) App.Restart s3 in
  App.activeCheckpointIndex s1 = Some 0%Z /\
  App.cyclist s2 = App.cyclist s1 /\
  Qred (progress (App.hooks (App.cyclist s3))) = (42 # 5)%Q /\
  App.cyclist s4 = App.mkMounted 1 mount /\
  App.activeCheckpointIndex s4 = None /\
  App.grid s4 = grid i.
Proof. vm_compute. repeat split; reflexivity. Qed.

End Runs.

(** * Further properties *)

Section RouteFacts.

Import Route.
Local Open Scope Z_scope.

(** *** Unfolding [connectPoints] *)

Lemma connect_loop_acc rnd p2 : forall (m : nat) curr k segment,
  Z.to_nat (remaining curr p2) = m ->
  connect_loop rnd p2 curr k segment =
  (segment ++ (connect_loop rnd p2 curr k []).1,
   (connect_loop rnd p2 curr k []).2).
Proof.
  induction m as [|m IH]; intros curr k segment Hm;
    rewrite (connect_loop_while rnd p2 curr k segment),
            (connect_loop_while rnd p2 curr k []);
    destruct (loop_cond curr p2) eqn:Hc; cbn [fst snd];
    try by rewrite app_nil_r.
  - assert (curr = p2) as E.
    { apply remaining_zero. pose proof (remaining_nonneg curr p2). lia. }
    apply loop_cond_false in E. congruence.
  - assert (Z.to_nat (remaining (loop_body rnd p2 curr k).1 p2) = m) as Hm'.
    { rewrite loop_body_remaining by done. lia. }
    rewrite (IH _ _ (segment ++ _) Hm'), (IH _ _ ([] ++ _) Hm').
    cbn [fst snd]. by rewrite <- app_assoc.
Qed.

Lemma connectPoints_done rnd k curr p2 :
  loop_cond curr p2 = false -> connectPoints rnd k curr p2 = ([], k).
Proof.
  intros Hc. unfold connectPoints. by rewrite connect_loop_while, Hc.
Qed.

Lemma connectPoints_step rnd k curr p2 :
  loop_cond curr p2 = true ->
  connectPoints rnd k curr p2 =
  ((loop_body rnd p2 curr k).1
     :: (connectPoints rnd (loop_body rnd p2 curr k).2
           (loop_body rnd p2 curr k).1 p2).1,
   (connectPoints rnd (loop_body rnd p2 curr k).2
      (loop_body rnd p2 curr k).1 p2).2).
Proof.
  intros Hc. unfold connectPoints. rewrite connect_loop_while, Hc.
  by rewrite (connect_loop_acc rnd p2 _ _ _ _ eq_refl).
Qed.

(** Induction along the iterations of the loop. *)
Lemma connectPoints_rect rnd p2 (P : Point -> nat -> list Point * nat -> Prop) :
  (forall curr k, loop_cond curr p2 = false -> P curr k ([], k)) ->
  (forall curr k,
      loop_cond curr p2 = true ->
      let b := loop_body rnd p2 curr k in
      P b.1 b.2 (connectPoints rnd b.2 b.1 p2) ->
      P curr k (b.1 :: (connectPoints rnd b.2 b.1 p2).1,
                (connectPoints rnd b.2 b.1 p2).2)) ->
  forall curr k, P curr k (connectPoints rnd k curr p2).
Proof.
  intros Hdone Hstep curr.
  remember (Z.to_nat (remaining curr p2)) as m eqn:Hm.
  revert curr Hm. induction m as [|m IH]; intros curr Hm k;
    destruct (loop_cond curr p2) eqn:Hc.
  - assert (curr = p2) as E.
    { apply remaining_zero. pose proof (remaining_nonneg curr p2). lia. }
    apply loop_cond_false in E. congruence.
  - rewrite connectPoints_done by done. by apply Hdone.
  - rewrite connectPoints_step by done. apply Hstep; [done|].
    apply IH. rewrite loop_body_remaining by done. lia.
  - rewrite connectPoints_done by done. by apply Hdone.
Qed.

(** *** Where a leg goes *)

Lemma move_in_box b curr p2 c :
  loop_cond curr p2 = true ->
  in_box curr p2 (move b curr p2) /\
  (in_box (move b curr p2) p2 c -> in_box curr p2 c).
Proof.
  unfold loop_cond, move, in_box. intros Hc.
  destruct (Z.eqb_spec (px curr) (px p2)), (Z.eqb_spec (py curr) (py p2));
    simpl in Hc; try discriminate;
    destruct b; simpl; case_eqb; simpl; lia.
Qed.

(** X1.  Every cell that [connectPoints] returns lies in the rectangle
    spanned by its two arguments, whatever the oracle answers. *)
Theorem connectPoints_in_box (rnd : Rand) (k : nat) (p1 p2 : Point) :
  Forall (in_box p1 p2) (connectPoints rnd k p1 p2).1.
Proof.
  revert p1 k.
  apply (connectPoints_rect rnd p2 (fun curr _ r => Forall (in_box curr p2) r.1)).
  - intros curr k _. constructor.
  - intros curr k Hc b IH. cbn [fst]. subst b. unfold loop_body in *.
    cbn [fst snd] in *. constructor.
    + by apply move_in_box.
    + eapply Forall_impl; [exact IH|]. intros c. by apply move_in_box.
Qed.

Lemma connectPoints_box rnd k p1 p2 :
  Forall (in_box p1 p2) (connectPoints rnd k p1 p2).1.
Proof.
  revert p1 k.
  apply (connectPoints_rect rnd p2 (fun curr _ r => Forall (in_box curr p2) r.1)).
  - intros curr k _. constructor.
  - intros curr k Hc b IH. cbn [fst]. subst b. unfold loop_body in *.
    cbn [fst snd] in *. constructor.
    + by apply move_in_box.
    + eapply Forall_impl; [exact IH|]. intros c. by apply move_in_box.
Qed.

(** Every cell of a leg is closer to the target than the cell the leg
    starts from, and no cell occurs twice. *)
Lemma connectPoints_closer rnd k p1 p2 :
  Forall (fun c => remaining c p2 < remaining p1 p2) (connectPoints rnd k p1 p2).1
  /\ NoDup (connectPoints rnd k p1 p2).1.
Proof.
  revert p1 k.
  apply (connectPoints_rect rnd p2
           (fun curr _ r =>
              Forall (fun c => remaining c p2 < remaining curr p2) r.1
              /\ NoDup r.1)).
  - intros curr k _. split; constructor.
  - intros curr k Hc b [IH1 IH2]. cbn [fst]. subst b.
    pose proof (loop_body_remaining rnd p2 curr k Hc) as Hr.
    split.
    + constructor; [lia|]. eapply Forall_impl; [exact IH1|].
      intros c Hlt. cbn beta in Hlt. lia.
    + constructor; [|done]. intros Hin.
      rewrite Forall_forall in IH1. specialize (IH1 _ Hin). cbn beta in IH1.
      lia.
Qed.

(** *** Legs along one axis *)

Lemma loop_body_aligned rnd k curr p2 :
  loop_cond curr p2 = true -> aligned curr p2 ->
  loop_body rnd p2 curr k =
  (move (Z.abs (py p2 - py curr) <? Z.abs (px p2 - px curr)) curr p2, k)
  /\ aligned (move (Z.abs (py p2 - py curr) <? Z.abs (px p2 - px curr)) curr p2)
       p2.
Proof.
  unfold loop_cond, aligned, loop_body, choose_moveX, move. intros Hc Ha.
  destruct (Z.eqb_spec (px curr) (px p2)), (Z.eqb_spec (py curr) (py p2));
    simpl in Hc; try discriminate; try lia.
  - destruct (Z.ltb_spec (Z.abs (py p2 - py curr)) (Z.abs (px p2 - px curr)));
      [lia|].
    destruct (Z.ltb_spec (Z.abs (px p2 - px curr)) (Z.abs (py p2 - py curr)));
      [|lia].
    cbn [fst snd]. case_eqb; simpl; try lia. split; [done | by left].
  - destruct (Z.ltb_spec (Z.abs (py p2 - py curr)) (Z.abs (px p2 - px curr)));
      [|lia].
    cbn [fst snd]. case_eqb; simpl; try lia. split; [done | by right].
Qed.

Lemma connectPoints_straight rnd rnd' p2 : forall p1 k k',
  aligned p1 p2 ->
  connectPoints rnd k p1 p2 = ((connectPoints rnd' k' p1 p2).1, k).
Proof.
  intros p1 k. revert p1 k.
  apply (connectPoints_rect rnd p2
           (fun curr k r =>
              forall k', aligned curr p2 ->
                         r = ((connectPoints rnd' k' curr p2).1, k))).
  - intros curr k Hc k' _. by rewrite connectPoints_done.
  - intros curr k Hc b IH k' Ha. subst b.
    rewrite (connectPoints_step rnd' k' curr p2 Hc). cbn [fst].
    destruct (loop_body_aligned rnd k curr p2 Hc Ha) as [E Ha'].
    destruct (loop_body_aligned rnd' k' curr p2 Hc Ha) as [E' _].
    rewrite E, E' in *. cbn [fst snd] in *.
    by rewrite (IH k' Ha').
Qed.


Lemma leg_cells rnd k p1 p2 cells :
  aligned p1 p2 -> (connectPoints rnd_hi 0 p1 p2).1 = cells ->
  connectPoints rnd k p1 p2 = (cells, k).
Proof.
  intros Ha <-. by apply connectPoints_straight.
Qed.

(** *** The route from (0,14) to (14,0) *)

(** Only the first and the last leg depend on the oracle. *)
Lemma route_legs rnd k :
  let s1 := connectPoints rnd k (mkPoint 0 14) (mkPoint 2 12) in
  let s10 := connectPoints rnd s1.2 (mkPoint 13 3) (mkPoint 14 0) in
  generateWindingPath rnd k (mkPoint 0 14) (mkPoint 14 0) =
  (mkPoint 0 14 :: s1.1 ++ fixed_cells ++ s10.1, s10.2).
Proof.
  intros s1 s10. unfold generateWindingPath, waypoints.
  rewrite connect_all_cons. fold s1.
  rewrite connect_all_cons,
    (leg_cells rnd _ (mkPoint 2 12) (mkPoint 6 12)
       [mkPoint 3 12; mkPoint 4 12; mkPoint 5 12; mkPoint 6 12]);
    [|by right|by vm_compute].
  rewrite connect_all_cons,
    (leg_cells rnd _ (mkPoint 6 12) (mkPoint 6 9)
       [mkPoint 6 11; mkPoint 6 10; mkPoint 6 9]);
    [|by left|by vm_compute].
  rewrite connect_all_cons,
    (leg_cells rnd _ (mkPoint 6 9) (mkPoint 2 9)
       [mkPoint 5 9; mkPoint 4 9; mkPoint 3 9; mkPoint 2 9]);
    [|by right|by vm_compute].
  rewrite connect_all_cons,
    (leg_cells rnd _ (mkPoint 2 9) (mkPoint 2 5)
       [mkPoint 2 8; mkPoint 2 7; mkPoint 2 6; mkPoint 2 5]);
    [|by left|by vm_compute].
  rewrite connect_all_cons,
    (leg_cells rnd _ (mkPoint 2 5) (mkPoint 10 5)
       [mkPoint 3 5; mkPoint 4 5; mkPoint 5 5; mkPoint 6 5; mkPoint 7 5;
        mkPoint 8 5; mkPoint 9 5; mkPoint 10 5]);
    [|by right|by vm_compute].
  rewrite connect_all_cons,
    (leg_cells rnd _ (mkPoint 10 5) (mkPoint 10 10)
       [mkPoint 10 6; mkPoint 10 7; mkPoint 10 8; mkPoint 10 9; mkPoint 10 10]);
    [|by left|by vm_compute].
  rewrite connect_all_cons,
    (leg_cells rnd _ (mkPoint 10 10) (mkPoint 13 10)
       [mkPoint 11 10; mkPoint 12 10; mkPoint 13 10]);
    [|by right|by vm_compute].
  rewrite connect_all_cons,
    (leg_cells rnd _ (mkPoint 13 10) (mkPoint 13 3)
       [mkPoint 13 9; mkPoint 13 8; mkPoint 13 7; mkPoint 13 6; mkPoint 13 5;
        mkPoint 13 4; mkPoint 13 3]);
    [|by left|by vm_compute].
  rewrite connect_all_cons. cbn [fst snd connect_all]. fold s10.
  f_equal. rewrite <- !app_assoc. reflexivity.
Qed.

Lemma route_first_leg rnd k :
  length (connectPoints rnd k (mkPoint 0 14) (mkPoint 2 12)).1 = 4%nat /\
  Forall (fun c => 0 <= px c <= 2 /\ 12 <= py c <= 14)
    (connectPoints rnd k (mkPoint 0 14) (mkPoint 2 12)).1.
Proof.
  split.
  - destruct (connect_loop_spec rnd (mkPoint 2 12) (mkPoint 0 14) k [])
      as (tail & E & _ & _ & N).
    unfold connectPoints. rewrite E, app_nil_l.
    change (remaining _ _) with 4 in N. lia.
  - eapply Forall_impl; [apply connectPoints_box|].
    intros c. unfold in_box. simpl. lia.
Qed.

Lemma route_last_leg rnd k :
  length (connectPoints rnd k (mkPoint 13 3) (mkPoint 14 0)).1 = 4%nat /\
  Forall (fun c => 13 <= px c <= 14 /\ 0 <= py c <= 3 /\ c <> mkPoint 13 3)
    (connectPoints rnd k (mkPoint 13 3) (mkPoint 14 0)).1.
Proof.
  split.
  - destruct (connect_loop_spec rnd (mkPoint 14 0) (mkPoint 13 3) k [])
      as (tail & E & _ & _ & N).
    unfold connectPoints. rewrite E, app_nil_l.
    change (remaining _ _) with 4 in N. lia.
  - pose proof (connectPoints_box rnd k (mkPoint 13 3) (mkPoint 14 0)) as Hb.
    destruct (connectPoints_closer rnd k (mkPoint 13 3) (mkPoint 14 0))
      as [Hc _].
    rewrite Forall_forall in Hb, Hc. apply Forall_forall. intros c Hin.
    specialize (Hb c Hin). specialize (Hc c Hin). unfold in_box in Hb.
    simpl in Hb. repeat split; try lia. intros ->. cbn in Hc. lia.
Qed.

(** X3.  The number of cells of a generated path does not depend on the
    oracle: it is 39 plus the distances from the start to (2,12) and from
    (13,3) to the end. *)
Theorem generateWindingPath_length_fixed
    (rnd rnd' : Rand) (k k' : nat) (start end_ : Point) :
  Z.of_nat (length (generateWindingPath rnd k start end_).1) =
    39 + remaining start (mkPoint 2 12) + remaining (mkPoint 13 3) end_ /\
  length (generateWindingPath rnd k start end_).1 =
    length (generateWindingPath rnd' k' start end_).1.
Proof.
  pose proof (generateWindingPath_length rnd k start end_).
  pose proof (generateWindingPath_length rnd' k' start end_).
  split; [done | lia].
Qed.

Lemma fixed_cells_off_first_leg :
  Forall (fun c => ~ (px c <= 2 /\ 12 <= py c)) fixed_cells.
Proof. unfold fixed_cells. repeat constructor; simpl; lia. Qed.

Lemma fixed_cells_off_last_leg :
  Forall (fun c => 13 <= px c /\ py c <= 3 -> c = mkPoint 13 3) fixed_cells.
Proof.
  unfold fixed_cells. repeat constructor; simpl; intros; try lia; done.
Qed.

Lemma fixed_cells_on_grid :
  Forall (fun c => 0 <= px c <= 14 /\ 0 <= py c <= 14) fixed_cells.
Proof. unfold fixed_cells. repeat constructor; simpl; lia. Qed.

Lemma fixed_cells_NoDup : NoDup fixed_cells.
Proof. apply (bool_decide_unpack _). by vm_compute. Qed.


Lemma route_has_47_cells rnd k :
  length (generateWindingPath rnd k (mkPoint 0 14) (mkPoint 14 0)).1 = 47%nat.
Proof.
  pose proof (generateWindingPath_length rnd k (mkPoint 0 14) (mkPoint 14 0))
    as H.
  change (remaining _ _) with 4 in H at 1. change (remaining _ _) with 4 in H.
  lia.
Qed.

(** X4.  Whatever the oracle answers, every cell of the path from (0,14)
    to (14,0) has both coordinates between 0 and 14: the path stays on
    the grid of [GRID_SIZE] by [GRID_SIZE] tiles. *)
Theorem route_on_grid (rnd : Rand) (k : nat) :
  Forall (fun c => 0 <= px c < Z.of_nat Editor.GRID_SIZE /\
                   0 <= py c < Z.of_nat Editor.GRID_SIZE)
    (generateWindingPath rnd k (mkPoint 0 14) (mkPoint 14 0)).1.
Proof.
  rewrite route_legs. cbn [fst].
  destruct (route_first_leg rnd k) as [_ H1].
  destruct (route_last_leg rnd
              (connectPoints rnd k (mkPoint 0 14) (mkPoint 2 12)).2)
    as [_ H10].
  unfold Editor.GRID_SIZE. constructor; [simpl; lia|].
  rewrite !Forall_app. split; [|split].
  - eapply Forall_impl; [exact H1|]. intros c. simpl. lia.
  - eapply Forall_impl; [exact fixed_cells_on_grid|]. intros c. simpl. lia.
  - eapply Forall_impl; [exact H10|]. intros c. simpl. lia.
Qed.

(** X5.  Whatever the oracle answers, the path from (0,14) to (14,0)
    visits no cell twice. *)
Theorem route_no_revisit (rnd : Rand) (k : nat) :
  NoDup (generateWindingPath rnd k (mkPoint 0 14) (mkPoint 14 0)).1.
Proof.
  rewrite route_legs. cbn [fst].
  set (s1 := connectPoints rnd k (mkPoint 0 14) (mkPoint 2 12)).
  set (s10 := connectPoints rnd s1.2 (mkPoint 13 3) (mkPoint 14 0)).
  destruct (route_first_leg rnd k) as [_ H1]. fold s1 in H1.
  destruct (route_last_leg rnd s1.2) as [_ H10]. fold s10 in H10.
  destruct (connectPoints_closer rnd k (mkPoint 0 14) (mkPoint 2 12))
    as [C1 N1]. fold s1 in C1, N1.
  destruct (connectPoints_closer rnd s1.2 (mkPoint 13 3) (mkPoint 14 0))
    as [_ N10]. fold s10 in N10.
  pose proof fixed_cells_off_first_leg as F1.
  pose proof fixed_cells_off_last_leg as F10.
  rewrite Forall_forall in H1, H10, C1, F1, F10.
  apply NoDup_cons. split.
  - rewrite !elem_of_app. intros [Hin|[Hin|Hin]].
    + specialize (C1 _ Hin). cbn in C1. lia.
    + specialize (F1 _ Hin). simpl in F1. lia.
    + specialize (H10 _ Hin). simpl in H10. lia.
  - apply NoDup_app. split; [done|]. split.
    + intros c Hin. specialize (H1 _ Hin). rewrite elem_of_app.
      intros [Hf|Hl].
      * specialize (F1 _ Hf). lia.
      * specialize (H10 _ Hl). lia.
    + apply NoDup_app. split; [apply fixed_cells_NoDup|]. split; [|done].
      intros c Hf Hl. specialize (H10 _ Hl). specialize (F10 _ Hf).
      destruct H10 as (? & ? & Hne). apply Hne, F10. lia.
Qed.

(** Whatever the oracle answers, the cells at the indices 5 to 42 of the
    path from (0,14) to (14,0) are the same 38 cells. *)
Lemma route_fixed_cells (rnd : Rand) (k : nat) :
  take 38 (drop 5 (generateWindingPath rnd k (mkPoint 0 14) (mkPoint 14 0)).1)
  = fixed_cells.
Proof.
  rewrite route_legs. cbn [fst].
  destruct (route_first_leg rnd k) as [L1 _].
  destruct (connectPoints rnd k (mkPoint 0 14) (mkPoint 2 12)).1
    as [|c1 [|c2 [|c3 [|c4 [|c5 l]]]]]; try discriminate.
  cbn [app drop]. rewrite drop_0. by rewrite take_app_length'.
Qed.

(** *** The three ties of the route *)

Lemma loop_body_tie rnd k curr p2 :
  Z.abs (px p2 - px curr) = Z.abs (py p2 - py curr) ->
  loop_body rnd p2 curr k = (move (Qgtb (rnd k) (1 # 2)) curr p2, S k).
Proof.
  intros E. unfold loop_body, choose_moveX, Math_random. rewrite E.
  by rewrite Z.ltb_irrefl.
Qed.

Lemma loop_body_major rnd k curr p2 :
  Z.abs (px p2 - px curr) <> Z.abs (py p2 - py curr) ->
  loop_body rnd p2 curr k =
  (move (Z.abs (py p2 - py curr) <? Z.abs (px p2 - px curr)) curr p2, k).
Proof.
  intros E. unfold loop_body, choose_moveX.
  destruct (Z.ltb_spec (Z.abs (py p2 - py curr)) (Z.abs (px p2 - px curr)));
    [done|].
  destruct (Z.ltb_spec (Z.abs (px p2 - px curr)) (Z.abs (py p2 - py curr)));
    [done | lia].
Qed.

(** Evaluate the moves whose direction is known. *)
Ltac eval_moves :=
  repeat match goal with
         | |- context [move ?m ?a ?b] =>
             lazymatch m with
             | context [Qgtb] => fail
             | _ => let c := eval vm_compute in (move m a b) in
                    change (move m a b) with c
             end
         end.

(** One iteration of [connectPoints] between two given cells. *)
Ltac leg_step :=
  match goal with
  | |- context [connectPoints ?r ?k ?a ?b] =>
      first
        [ rewrite (connectPoints_done r k a b) by reflexivity
        | rewrite (connectPoints_step r k a b) by reflexivity;
          first [ rewrite (loop_body_tie r k a b) by reflexivity
                | rewrite (loop_body_major r k a b) by discriminate ] ]
  end;
  cbn [fst snd]; eval_moves.

Lemma first_leg_flips rnd k :
  connectPoints rnd k (mkPoint 0 14) (mkPoint 2 12) =
  ([ if Qgtb (rnd k) (1 # 2) then mkPoint 1 14 else mkPoint 0 13;
     mkPoint 1 13;
     if Qgtb (rnd (S k)) (1 # 2) then mkPoint 2 13 else mkPoint 1 12;
     mkPoint 2 12 ], S (S k)).
Proof.
  leg_step. destruct (Qgtb (rnd k) (1 # 2)); eval_moves;
    leg_step; leg_step; destruct (Qgtb (rnd (S k)) (1 # 2)); eval_moves;
    leg_step; leg_step; reflexivity.
Qed.

Lemma last_leg_flips rnd k :
  connectPoints rnd k (mkPoint 13 3) (mkPoint 14 0) =
  ([ mkPoint 13 2; mkPoint 13 1;
     if Qgtb (rnd k) (1 # 2) then mkPoint 14 1 else mkPoint 13 0;
     mkPoint 14 0 ], S k).
Proof.
  leg_step. leg_step. leg_step. destruct (Qgtb (rnd k) (1 # 2)); eval_moves;
    leg_step; leg_step; reflexivity.
Qed.

(** X6.  The path from (0,14) to (14,0) is decided by three outcomes of
    the oracle, the next three unread ones: each breaks one tie, and the
    path is one of eight, the one [route_of] gives for the three
    comparisons with one half. *)
Theorem route_decided_by_three_flips (rnd : Rand) (k : nat) :
  generateWindingPath rnd k (mkPoint 0 14) (mkPoint 14 0) =
  (route_of (Qgtb (rnd k) (1 # 2)) (Qgtb (rnd (S k)) (1 # 2))
     (Qgtb (rnd (S (S k))) (1 # 2)),
   S (S (S k))).
Proof.
  rewrite route_legs. cbv zeta. rewrite first_leg_flips. cbn [fst snd].
  rewrite last_leg_flips. reflexivity.
Qed.

End RouteFacts.

Section ViewFacts.

Import View Editor.

Lemma Math_min_spec a b :
  (Math_min a b <= a)%Q /\ (Math_min a b <= b)%Q /\
  (Math_min a b = a \/ Math_min a b = b).
Proof.
  unfold Math_min. destruct (Qle_bool a b) eqn:E.
  - apply Qle_bool_iff in E. split; [lra|]. split; [done | by left].
  - assert (b < a)%Q.
    { apply Qnot_le_lt. intros H. apply Qle_bool_iff in H. congruence. }
    split; [lra|]. split; [lra | by right].
Qed.

(** X7.  On a path of at least two cells and for a progress that is not
    negative, the frame callback always finds the two cells to draw the
    cyclist between: they are consecutive cells of the path, the fraction
    between them is at least 0 and less than 1, and index plus fraction is
    the smaller of the progress and the path length minus 1.001 (so the
    cyclist is never drawn on the last cell itself). *)
Theorem segment_between (path : list Point) (progress : Q) :
  (2 <= length path)%nat -> (0 <= progress)%Q ->
  exists (i : nat) (p1 p2 : Point) (t : Q),
    segment path progress = Between p1 p2 t /\
    path !! i = Some p1 /\ path !! S i = Some p2 /\
    (0 <= t < 1)%Q /\
    (inject_Z (Z.of_nat i) + t ==
     Math_min progress (inject_Z (Z.of_nat (length path)) - (1001 # 1000)))%Q.
Proof.
  intros Hlen Hp. unfold segment.
  set (d := Math_min progress
              (inject_Z (Z.of_nat (length path)) - (1001 # 1000))).
  assert (2 <= inject_Z (Z.of_nat (length path)))%Q as Hn.
  { change 2%Q with (inject_Z 2). rewrite <- Zle_Qle. lia. }
  assert (0 <= d)%Q as Hd0.
  { destruct (Math_min_spec progress
                (inject_Z (Z.of_nat (length path)) - (1001 # 1000)))
      as (_ & _ & [E|E]); fold d in E; rewrite E; lra. }
  assert (d <= inject_Z (Z.of_nat (length path)) - (1001 # 1000))%Q as Hd1
    by apply Math_min_spec.
  pose proof (Qfloor_le d) as Hfl. pose proof (Qlt_floor d) as Hfu.
  rewrite inject_Z_plus in Hfu.
  assert (0 <= Qfloor d)%Z as Hi0.
  { assert (inject_Z (-1) < inject_Z (Qfloor d))%Q as H; [|].
    { change (inject_Z (-1)) with (-1)%Q. change (inject_Z 1) with 1%Q in Hfu.
      lra. }
    rewrite <- Zlt_Qlt in H. lia. }
  assert (Qfloor d + 1 < Z.of_nat (length path))%Z as Hi1.
  { rewrite Zlt_Qlt, inject_Z_plus. change (inject_Z 1) with 1%Q. lra. }
  unfold at_.
  destruct (Z.ltb_spec (Qfloor d + 1) 0); [lia|].
  destruct (Z.ltb_spec (Qfloor d) 0); [lia|].
  destruct (lookup_lt_is_Some_2 path (Z.to_nat (Qfloor d + 1))) as [p2 E2];
    [lia|].
  destruct (lookup_lt_is_Some_2 path (Z.to_nat (Qfloor d))) as [p1 E1];
    [lia|].
  rewrite E2, E1. exists (Z.to_nat (Qfloor d)), p1, p2, (d - inject_Z (Qfloor d))%Q.
  split; [done|]. split; [done|]. split.
  { rewrite <- E2. f_equal. lia. }
  rewrite Z2Nat.id by done. change (inject_Z 1) with 1%Q in Hfu.
  split; [lra | ring].
Qed.




(** X9.  For the path of the application, whatever the oracle answers,
    [PathCheckpoints] draws five markers and skips none; they stand on the
    cells (5,12), (2,9), (6,5), (10,9) and (13,6) of the path; and the
    active one is the one whose position in that list is the active
    index. *)
Theorem PathCheckpoints_cells (rnd : Rand) (activeIndex : option Z) :
  PathCheckpoints (path (createInitialState rnd)) activeIndex =
  Some (imap (fun i c => Some (node activeIndex i c))
          [mkPoint 5 12; mkPoint 2 9; mkPoint 6 5; mkPoint 10 9;
           mkPoint 13 6]).
Proof.
  unfold PathCheckpoints, createInitialState, start, end_. cbn [path].
  rewrite route_has_47_cells. cbn [Nat.eqb].
  change (Checkpoints.getCheckpointIndices (Z.of_nat 47))
    with [7; 15; 23; 31; 39]%Z.
  rewrite route_legs. cbn [fst].
  destruct (route_first_leg rnd 0) as [L1 _].
  destruct (connectPoints rnd 0 (mkPoint 0 14) (mkPoint 2 12)).1
    as [|c1 [|c2 [|c3 [|c4 [|c5 l]]]]]; try discriminate.
  reflexivity.
Qed.

End ViewFacts.

Section RideFacts.

Import Checkpoints Cyclist Ride.

Variable path : list Point.

Local Abbreviation last_index := (inject_Z (Z.of_nat (length path) - 1)).
Local Abbreviation cps := (getCheckpointIndices (Z.of_nat (length path))).

(** *** The index a checkpoint is reported with *)

Lemma indexOf_from_lookup l v : forall i k,
  indexOf_from l v i = k -> k <> (-1)%Z -> (0 <= i)%Z ->
  (i <= k < i + Z.of_nat (length l))%Z /\ l !! Z.to_nat (k - i) = Some v.
Proof.
  induction l as [|u l IH]; intros i k; simpl; [congruence|].
  destruct (Z.eqb_spec u v) as [->|Hne]; intros <- Hk Hi.
  - replace (i - i)%Z with 0%Z by lia. split; [lia | done].
  - destruct (IH (i + 1)%Z _ eq_refl Hk ltac:(lia)) as [Hr Hl].
    split; [lia|].
    replace (Z.to_nat (indexOf_from l v (i + 1) - i))
      with (S (Z.to_nat (indexOf_from l v (i + 1) - (i + 1)))) by lia.
    done.
Qed.

Lemma onReach_position (f : Frame) (s : State) (k : Z) :
  onReachCheckpoint k ∈ (useFrame path f s).2 ->
  (0 <= k < CHECKPOINT_COUNT)%Z /\
  cps !! Z.to_nat k = Some (Qfloor (newProgress f s)).
Proof.
  intros (_ & Hin & _ & ->)%onReach_in_frame.
  assert (indexOf cps (Qfloor (newProgress f s)) <> (-1)%Z) as Hk.
  { intros E. by apply indexOf_absent in E. }
  destruct (indexOf_from_lookup cps _ 0 _ eq_refl Hk ltac:(lia)) as [Hr Hl].
  rewrite Z.sub_0_r in Hl. split; [|done].
  assert (length cps = 5%nat) as Hlen
    by by rewrite getCheckpointIndices_list.
  rewrite Hlen in Hr. unfold CHECKPOINT_COUNT, indexOf. lia.
Qed.

(** X10.  An [onReachCheckpoint] callback carries the position, from 0 to
    4, that the floor of the progress computed by the frame has in the
    list of checkpoint indices. *)
Theorem onReachCheckpoint_index (f : Frame) (s : State) (k : Z) :
  onReachCheckpoint k ∈ (useFrame path f s).2 ->
  (0 <= k < CHECKPOINT_COUNT)%Z /\
  cps !! Z.to_nat k = Some (Qfloor (newProgress f s)).
Proof. apply onReach_position. Qed.

(** *** Which checkpoints a ride reports *)

Lemma callbacks_elem e fs : forall s,
  e ∈ callbacks (run path fs s) <->
  exists fs1 f fs2,
    fs = fs1 ++ f :: fs2 /\ e ∈ (useFrame path f (final path fs1 s)).2.
Proof.
  induction fs as [|f fs IH]; intros s.
  - split; [by intros ?%elem_of_nil|].
    intros (fs1 & f & fs2 & E & _). by destruct fs1.
  - cbn [run]. rewrite callbacks_cons, elem_of_app, IH. cbn [snd]. split.
    + intros [H|(fs1 & g & fs2 & -> & H)].
      * by exists [], f, fs.
      * by exists (f :: fs1), g, fs2.
    + intros ([|f' fs1] & g & fs2 & E & H); injection E as <- ->.
      * by left.
      * right. by exists fs1, g, fs2.
Qed.

(** When the guard holds a checkpoint index, that checkpoint has been
    reported. *)
Lemma guard_reported c fs :
  c ∈ cps ->
  lastTriggeredCheckpoint (final path fs mount) = c ->
  onReachCheckpoint (indexOf cps c) ∈ callbacks (run path fs mount).
Proof.
  intros Hc. induction fs as [|f fs IH] using rev_ind.
  - cbn. intros <-. by apply (cps_nonneg path) in Hc.
  - rewrite final_snoc, run_app, callbacks_app, elem_of_app.
    cbn [run]. rewrite callbacks_cons. cbn [snd callbacks map concat].
    rewrite app_nil_r. set (s := final path fs mount) in *.
    destruct (moves path f s) eqn:Hm.
    2: { rewrite useFrame_still by done. cbn [fst]. auto. }
    rewrite onReach_in_frame, Hm.
    rewrite useFrame_moves by done. cbn [fst].
    rewrite trigger_guard. case_bool_decide as Hin.
    + intros E. destruct (decide (lastTriggeredCheckpoint s = c)); [auto|].
      right. rewrite E. repeat split; congruence.
    + intros <-. by apply (cps_nonneg path) in Hc.
Qed.

(** X11.  A ride reports a checkpoint exactly when one of its frames moves
    the cyclist and computes a progress whose floor is the index of that
    checkpoint; a frame long enough to take the floor from below the index
    to above it passes the checkpoint without a report. *)
Theorem reported_iff_landed (fs : list Frame) (c : Z) :
  c ∈ cps ->
  onReachCheckpoint (indexOf cps c) ∈ callbacks (run path fs mount) <->
  exists fs1 f fs2,
    fs = fs1 ++ f :: fs2 /\ lands path c f (final path fs1 mount).
Proof.
  intros Hc. rewrite callbacks_elem. split.
  - intros (fs1 & f & fs2 & E & (Hm & Hin & _ & Heq)%onReach_in_frame).
    exists fs1, f, fs2. split; [done|]. split; [done|].
    symmetry. by apply (indexOf_inj cps).
  - intros (fs1 & f & fs2 & -> & [Hm Hfl]).
    destruct (decide (lastTriggeredCheckpoint (final path fs1 mount) = c))
      as [E|E].
    + apply (guard_reported c fs1 Hc) in E.
      apply callbacks_elem in E as (g1 & g & g2 & -> & E).
      exists g1, g, (g2 ++ f :: fs2). split; [by rewrite <- app_assoc | done].
    + exists fs1, f, fs2. split; [done|]. apply onReach_in_frame.
      rewrite Hfl. done.
Qed.

(** *** How far a ride gets *)




(** X21.  With elapsed times that are not negative, a ride reports each
    checkpoint at most once, from whatever state it starts: the cyclist
    never comes back to an index it has left. *)
Theorem each_checkpoint_once (k : Z) (fs : list Frame) (s : State) :
  Forall (fun f => 0 <= delta f)%Q fs ->
  (reaches k (run path fs s) <= 1)%nat.
Proof. apply checkpoint_once_per_ride. Qed.

End RideFacts.

Section GridFacts.

Import Editor Session.

(** *** The initial grid *)

Lemma initialType_cases rnd k ps x y :
  ((initialType rnd k ps x y).1 = BuildingType.Road <->
   (Z.of_nat x, Z.of_nat y) ∈ ps) /\
  (initialType rnd k ps x y).1 <> BuildingType.Industrial /\
  ((12 <= x)%nat -> (y <= 2)%nat -> (Z.of_nat x, Z.of_nat y) ∉ ps ->
   (initialType rnd k ps x y).1 = BuildingType.None).
Proof.
  unfold initialType. case_bool_decide as Hp.
  - cbn [fst]. repeat split; done.
  - destruct (Nat.leb_spec 12 x), (Nat.leb_spec y 2); cbn [andb fst];
      repeat (match goal with
              | |- context [if ?b then _ else _] => destruct b
              end; cbn [fst]);
      repeat split; try done; try lia.
Qed.

(** X13.  In the initial grid, whatever the oracle answers, a tile is a
    road exactly when it is on the path, no tile is industrial, and the
    tiles with [x >= 12] and [y <= 2] that are off the path are empty. *)
Theorem createInitialState_types (rnd : Rand) (x y : nat) (t : TileData) :
  tileAt (grid (createInitialState rnd)) x y = Some t ->
  (buildingType t = BuildingType.Road <->
   isPath (path (createInitialState rnd)) x y = true) /\
  buildingType t <> BuildingType.Industrial /\
  ((12 <= x)%nat -> (y <= 2)%nat ->
   isPath (path (createInitialState rnd)) x y = false ->
   buildingType t = BuildingType.None).
Proof.
  unfold tileAt, createInitialState. cbn [grid path].
  intros (row & Hrow & Ht)%bind_Some.
  apply initialRows_lookup in Hrow as (k1 & y' & Hy & ->).
  apply initialRow_lookup in Ht as (k2 & x' & Hx & ->).
  apply lookup_seq in Hy as [-> _]. apply lookup_seq in Hx as [-> _].
  cbn [buildingType Nat.add].
  destruct (initialType_cases rnd k2
              (pathSet (generateWindingPath rnd 0 start end_).1) x y)
    as (H1 & H2 & H3).
  rewrite isPath_pathSet. split; [done|]. split; [done|].
  intros Hx Hy Hp. apply H3; [done..|]. rewrite <- isPath_pathSet. congruence.
Qed.

(** *** Grids reached by clicks *)

Lemma tileAt_setTile g x y t0 t b x' y' :
  tileAt g x y = Some t0 ->
  tileAt (setTile g x y t b) x' y' =
  if decide ((x', y') = (x, y)) then Some (mkTile (tile_x t) (tile_y t) b)
  else tileAt g x' y'.
Proof.
  intros H0. case_decide as E.
  - injection E as -> ->. by eapply tileAt_setTile_eq.
  - by apply tileAt_setTile_ne.
Qed.

Lemma handleTileClick_placed path tool g x y g' :
  placed g -> handleTileClick path tool g x y = Some g' -> placed g'.
Proof.
  intros Hg Hc. destruct (tileAt g x y) as [t|] eqn:Ht.
  2: { unfold handleTileClick in Hc. by rewrite Ht in Hc. }
  rewrite (handleTileClick_tile _ _ _ _ _ t Ht) in Hc. injection Hc as <-.
  assert (forall b, placed (setTile g x y t b)) as Hset.
  { intros b x' y' t'. rewrite (tileAt_setTile _ _ _ t) by done.
    case_decide as E; [|apply Hg].
    injection E as -> ->. intros [= <-]. exact (Hg x y t Ht). }
  repeat case_bool_decide; destruct (isPath path x y); auto.
Qed.

Lemma clicks_placed path cs g : placed g -> placed (clicks path cs g).
Proof.
  revert g. induction cs as [|c cs IH]; intros g Hg; [done|].
  cbn [clicks]. apply IH.
  destruct (handleTileClick path (tool c) g (click_x c) (click_y c))
    as [g'|] eqn:Hc; [|done].
  by eapply handleTileClick_placed.
Qed.

(** X14.  Every grid reached from the initial grid by tile clicks has
    [GRID_SIZE] rows of [GRID_SIZE] tiles, and every tile carries the
    coordinates of the place it is stored at. *)
Theorem reachable_grid_shape (rnd : Rand) (cs : list Click) :
  let i := createInitialState rnd in
  let g := clicks (path i) cs (grid i) in
  length g = GRID_SIZE /\
  Forall (fun row => length row = GRID_SIZE) g /\
  forall (x y : nat) (t : TileData),
    tileAt g x y = Some t -> tile_x t = x /\ tile_y t = y.
Proof.
  intros i g. destruct (reachable_inv rnd cs) as [[H1 H2] _].
  split; [done|]. split; [done|].
  apply clicks_placed. intros x y t Ht.
  by destruct (createInitialState_tile rnd x y t Ht) as (? & ? & _).
Qed.

(** *** How clicks compose *)

Lemma setTile_setTile g x y t t' b :
  tile_x t' = tile_x t -> tile_y t' = tile_y t ->
  setTile (setTile g x y t b) x y t' b = setTile g x y t b.
Proof.
  intros Hx Hy. unfold setTile. destruct (g !! y) as [row|] eqn:Hrow.
  - rewrite list_lookup_insert_eq by by eapply lookup_lt_Some.
    rewrite !list_insert_insert_eq, Hx, Hy. done.
  - by rewrite Hrow.
Qed.

Lemma handleTileClick_outside path tool g x y :
  tileAt g x y = None -> handleTileClick path tool g x y = None.
Proof. intros H. unfold handleTileClick. by rewrite H. Qed.

(** X15.  Clicking the same tile twice with the same tool leaves the grid
    as one click does, for every grid, tool and tile. *)
Theorem click_twice (path : list Point) (c : Click) (g : Grid) :
  clicks path [c; c] g = clicks path [c] g.
Proof.
  cbn [clicks]. destruct c as [tool x y]. cbn [Editor.tool click_x click_y].
  destruct (tileAt g x y) as [t|] eqn:Ht.
  2: { rewrite (handleTileClick_outside _ _ _ _ _ Ht). cbn [default].
       by rewrite (handleTileClick_outside _ _ _ _ _ Ht). }
  rewrite (handleTileClick_tile _ _ _ _ _ t Ht).
  case_bool_decide as Htool.
  - destruct (isPath path x y) eqn:Hp; cbn [default].
    + rewrite (handleTileClick_tile _ _ _ _ _ t Ht).
      by rewrite bool_decide_eq_true_2, Hp.
    + erewrite handleTileClick_tile by by eapply tileAt_setTile_eq.
      rewrite bool_decide_eq_true_2, Hp by done. cbn [default].
      by apply setTile_setTile.
  - case_bool_decide as Hn; cbn [default].
    + erewrite handleTileClick_tile by by eapply tileAt_setTile_eq.
      rewrite bool_decide_eq_false_2 by done. cbn [buildingType].
      by rewrite bool_decide_eq_false_2.
    + rewrite (handleTileClick_tile _ _ _ _ _ t Ht).
      by rewrite !bool_decide_eq_false_2.
Qed.

(** The type of the tile at [(x, y)] after a click elsewhere or a click
    that changes nothing. *)
Lemma handleTileClick_type path tool g cx cy g' x y :
  handleTileClick path tool g cx cy = Some g' ->
  buildingType <$> tileAt g' x y =
  if decide ((x, y) = (cx, cy)) then
    (fun t =>
       if bool_decide (tool = BuildingType.None) then
         if isPath path cx cy then buildingType t else BuildingType.None
       else if bool_decide (buildingType t = BuildingType.None) then tool
            else buildingType t) <$> tileAt g cx cy
  else buildingType <$> tileAt g x y.
Proof.
  intros Hc. destruct (tileAt g cx cy) as [t|] eqn:Ht.
  2: { unfold handleTileClick in Hc. by rewrite Ht in Hc. }
  rewrite (handleTileClick_tile _ _ _ _ _ t Ht) in Hc. injection Hc as <-.
  case_decide as E.
  - injection E as -> ->. cbn [fmap option_fmap option_map].
    repeat case_bool_decide; destruct (isPath path cx cy);
      try (erewrite tileAt_setTile_eq by exact Ht); rewrite ?Ht; done.
  - repeat case_bool_decide; destruct (isPath path cx cy);
      try (rewrite tileAt_setTile_ne by done); done.
Qed.

(** X16.  Building tools never replace a building: through any sequence
    of clicks made with tools other than the bulldozer, a tile whose type
    is not [None] keeps its type. *)
Theorem buildings_stay (path : list Point) (cs : list Click) (g : Grid)
    (x y : nat) (t : TileData) :
  Forall (fun c => tool c <> BuildingType.None) cs ->
  tileAt g x y = Some t -> buildingType t <> BuildingType.None ->
  buildingType <$> tileAt (clicks path cs g) x y = Some (buildingType t).
Proof.
  intros Hcs. revert g t. induction Hcs as [|c cs Hc _ IH]; intros g t Ht Hb.
  - cbn [clicks]. by rewrite Ht.
  - cbn [clicks].
    destruct (handleTileClick path (tool c) g (click_x c) (click_y c))
      as [g'|] eqn:Hg; cbn [default]; [|by eapply IH].
    pose proof (handleTileClick_type _ _ _ _ _ _ x y Hg) as Hty.
    rewrite bool_decide_eq_false_2 in Hty by done.
    assert (buildingType <$> tileAt g' x y = Some (buildingType t)) as Hsame.
    { rewrite Hty. case_decide as E; [|by rewrite Ht].
      injection E as <- <-. rewrite Ht. cbn.
      by rewrite bool_decide_eq_false_2. }
    destruct (tileAt g' x y) as [t'|] eqn:Ht'; [|done].
    injection Hsame as Hsame. rewrite <- Hsame. apply IH; [done | congruence].
Qed.

(** X17.  On a tile of a reached grid that is off the path, a click with
    the bulldozer followed by a click with a building tool leaves that
    tile with the type of the tool, whatever it held before, and every
    other tile as it was. *)
Theorem bulldoze_then_build
    (rnd : Rand) (cs : list Click) (tool : BuildingType.t) (x y : nat) :
  let i := createInitialState rnd in
  let g := clicks (path i) cs (grid i) in
  let g' := clicks (path i)
              [mkClick BuildingType.None x y; mkClick tool x y] g in
  (x < GRID_SIZE)%nat -> (y < GRID_SIZE)%nat ->
  isPath (path i) x y = false -> tool <> BuildingType.None ->
  buildingType <$> tileAt g' x y = Some tool /\
  forall x' y', (x', y') <> (x, y) -> tileAt g' x' y' = tileAt g x' y'.
Proof.
  intros i g g' Hx Hy Hp Htool. subst g'.
  destruct (reachable_inv rnd cs) as [Hs _]. fold i in Hs. fold g in Hs.
  destruct (well_shaped_tileAt g x y Hs Hx Hy) as [t Ht].
  cbn [clicks Editor.tool click_x click_y].
  rewrite (handleTileClick_tile _ _ _ _ _ t Ht).
  rewrite bool_decide_eq_true_2, Hp by done. cbn [default from_option id].
  erewrite handleTileClick_tile by by eapply tileAt_setTile_eq.
  rewrite bool_decide_eq_false_2 by done. cbn [buildingType].
  rewrite bool_decide_eq_true_2 by done. cbn [default from_option id]. split.
  - by erewrite tileAt_setTile_eq by by eapply tileAt_setTile_eq.
  - intros x' y' Hne. by rewrite !tileAt_setTile_ne.
Qed.

End GridFacts.

Lemma Cyclist_useFrame_paused path f st :
  Cyclist.isPaused f = true -> Cyclist.useFrame path f st = (st, []).
Proof.
  intros Hp. apply useFrame_still. unfold Cyclist.moves.
  by rewrite Hp, andb_false_r.
Qed.

Section SessionFacts.

Import Editor App Session.

Variable path : list Point.

Lemma deliver_all es : forall s,
  foldl (fun s e => deliver e s) s es =
  mkApp (App.grid s) (selectedTool s) (reported es (activeCheckpointIndex s))
    (cycleKey s) (cyclist s).
Proof.
  induction es as [|e es IH]; intros s; [by destruct s|].
  cbn [foldl]. rewrite IH. by destruct e.
Qed.

Lemma frame_fields groupReady delta s :
  let f := Cyclist.mkFrame groupReady
             (bool_decide (activeCheckpointIndex s <> None)) delta in
  let r := Cyclist.useFrame path f (hooks (cyclist s)) in
  frame path groupReady delta s =
  mkApp (App.grid s) (selectedTool s) (reported r.2 (activeCheckpointIndex s))
    (cycleKey s) (mkMounted (key (cyclist s)) r.1).
Proof. intros f r. unfold frame. by rewrite deliver_all. Qed.

Lemma render_fields s :
  App.grid (render s) = App.grid s /\
  selectedTool (render s) = selectedTool s /\
  activeCheckpointIndex (render s) = activeCheckpointIndex s /\
  cycleKey (render s) = cycleKey s.
Proof. unfold render. by case_bool_decide. Qed.

Lemma render_same s : key (cyclist s) = cycleKey s -> render s = s.
Proof. intros H. unfold render. by rewrite bool_decide_eq_true_2. Qed.

Lemma steps_cons i is_ s :
  steps path (i :: is_) s = steps path is_ (step path i s).
Proof. done. Qed.

(** X18.  The grid of the application is written by tile clicks only:
    after any sequence of inputs it is the grid obtained by replaying the
    tile clicks among them, each with the tool selected at the time;
    frames, checkpoint cards, tool selections and restarts leave it as it
    is. *)
Theorem grid_replays_clicks (inputs : list Input) (s : App.State) :
  App.grid (steps path inputs s) =
  clicks path (clicks_of inputs (selectedTool s)) (App.grid s).
Proof.
  revert s. induction inputs as [|i inputs IH]; intros s; [done|].
  rewrite steps_cons, IH. unfold step.
  destruct (render_fields
              match i with
              | TileClick x y => App.handleTileClick path x y s
              | SelectTool type =>
                  mkApp (App.grid s) type (activeCheckpointIndex s)
                    (cycleKey s) (cyclist s)
              | ContinueCycle => handleContinueCycle s
              | Restart => handleRestart s
              | AnimationFrame groupReady delta =>
                  frame path groupReady delta s
              end) as (-> & -> & _).
  destruct i as [x y|type| | |groupReady delta]; cbn [clicks_of clicks];
    try done.
  - unfold App.handleTileClick. cbn [tool click_x click_y].
    by destruct (Editor.handleTileClick path (selectedTool s) (App.grid s) x y).
  - by rewrite frame_fields.
Qed.

Lemma reported_cases es a :
  reported es a = a \/
  exists k, reported es a = Some k /\ Cyclist.onReachCheckpoint k ∈ es.
Proof.
  revert a. induction es as [|e es IH]; intros a; [by left|].
  destruct e as [k|]; cbn [reported].
  - right. destruct (IH (Some k)) as [->|(k' & -> & Hin)].
    + exists k. split; [done | by left].
    + exists k'. split; [done | by right].
  - destruct (IH a) as [->|(k' & -> & Hin)]; [by left|].
    right. exists k'. split; [done | by right].
Qed.

Lemma step_card_in_range i s : card_in_range s -> card_in_range (step path i s).
Proof.
  unfold card_in_range, step. intros Hs.
  destruct (render_fields
              match i with
              | TileClick x y => App.handleTileClick path x y s
              | SelectTool type =>
                  mkApp (App.grid s) type (activeCheckpointIndex s)
                    (cycleKey s) (cyclist s)
              | ContinueCycle => handleContinueCycle s
              | Restart => handleRestart s
              | AnimationFrame groupReady delta =>
                  frame path groupReady delta s
              end) as (_ & _ & -> & _).
  destruct i as [x y|type| | |groupReady delta]; try done.
  - unfold App.handleTileClick.
    by destruct (Editor.handleTileClick path (selectedTool s) (App.grid s) x y).
  - rewrite frame_fields. cbn [activeCheckpointIndex].
    destruct (reported_cases
                (Cyclist.useFrame path
                   (Cyclist.mkFrame groupReady
                      (bool_decide (activeCheckpointIndex s <> None)) delta)
                   (hooks (cyclist s))).2 (activeCheckpointIndex s))
      as [->|(k & -> & Hin)]; [done|].
    by apply onReach_position in Hin as [? _].
Qed.

(** X19.  In every state the application reaches from its first render,
    the active checkpoint is either none or a number from 0 to 4, one for
    each of the five checkpoints. *)
Theorem active_checkpoint_in_range
    (i : Editor.InitialState) (inputs : list Input) :
  match activeCheckpointIndex (steps path inputs (init i)) with
  | Some k => (0 <= k < Checkpoints.CHECKPOINT_COUNT)%Z
  | None => True
  end.
Proof.
  change (card_in_range (steps path inputs (init i))).
  induction inputs as [|j inputs IH] using rev_ind; [done|].
  rewrite steps_snoc. by apply step_card_in_range.
Qed.

Lemma paused_step j s :
  key (cyclist s) = cycleKey s ->
  activeCheckpointIndex s <> None -> keeps_card j = true ->
  cyclist (step path j s) = cyclist s /\
  activeCheckpointIndex (step path j s) = activeCheckpointIndex s /\
  cycleKey (step path j s) = cycleKey s.
Proof.
  intros Hk Ha Hj. unfold step.
  destruct j as [x y|type| | |groupReady delta]; try discriminate.
  - unfold App.handleTileClick.
    destruct (Editor.handleTileClick path (selectedTool s) (App.grid s) x y);
      by rewrite render_same.
  - by rewrite render_same.
  - rewrite frame_fields, Cyclist_useFrame_paused; [|by rewrite bool_decide_eq_true_2].
    rewrite render_same by done. cbn. by destruct (cyclist s).
Qed.

Lemma paused_steps inputs : forall s,
  key (cyclist s) = cycleKey s ->
  activeCheckpointIndex s <> None -> forallb keeps_card inputs = true ->
  cyclist (steps path inputs s) = cyclist s /\
  activeCheckpointIndex (steps path inputs s) = activeCheckpointIndex s.
Proof.
  induction inputs as [|j inputs IH]; intros s Hk Ha Hall; [done|].
  cbn [forallb] in Hall. apply andb_prop in Hall as [Hj Hall].
  destruct (paused_step j s Hk Ha Hj) as (Hc & Hact & Hkey).
  rewrite steps_cons.
  destruct (IH (step path j s)) as [H1 H2]; [| |done|].
  - by rewrite Hc, Hkey.
  - by rewrite Hact.
  - by rewrite H1, H2, Hc, Hact.
Qed.

(** X20.  While a checkpoint card is shown the ride stands still: from a
    reached state with an active checkpoint, any inputs other than
    dismissing the card or restarting (frames, tile clicks, tool
    selections) leave the mounted cyclist and the active checkpoint as
    they are. *)
Theorem paused_until_dismissed
    (i : Editor.InitialState) (inputs0 inputs : list Input) :
  let s := steps path inputs0 (init i) in
  activeCheckpointIndex s <> None ->
  forallb keeps_card inputs = true ->
  cyclist (steps path inputs s) = cyclist s /\
  activeCheckpointIndex (steps path inputs s) = activeCheckpointIndex s.
Proof.
  intros s Ha Hall. apply paused_steps; [|done..].
  by apply steps_key.
Qed.

End SessionFacts.

(** * Further concrete runs *)

Section FurtherRuns.

Import Cyclist Editor View Ride Session Route.


(** X7 at a progress of two and a half cells. *)
Lemma segment_between_witness :
  exists (i : nat) (p1 p2 : Point) (t : Q),
    segment demo_path (5 # 2) = Between p1 p2 t /\
    demo_path !! i = Some p1 /\ demo_path !! S i = Some p2 /\
    (0 <= t < 1)%Q /\
    (inject_Z (Z.of_nat i) + t ==
     Math_min (5 # 2)
       (inject_Z (Z.of_nat (length demo_path)) - (1001 # 1000)))%Q.
Proof.
  apply (segment_between demo_path (5 # 2)).
  - vm_compute. lia.
  - unfold Qle. simpl. lia.
Defined.


(** X10 for the frame that takes the progress from 6 to 7.2. *)
Lemma onReachCheckpoint_index_witness :
  (0 <= 0 < Checkpoints.CHECKPOINT_COUNT)%Z /\
  Checkpoints.getCheckpointIndices (Z.of_nat (length demo_path))
    !! Z.to_nat 0 =
  Some (Qfloor (newProgress (mkFrame true false 1) (mkState 6 (-1) false))).
Proof.
  apply (onReachCheckpoint_index demo_path (mkFrame true false 1)
           (mkState 6 (-1) false) 0).
  vm_compute. left.
Defined.

(** X11 for the ride of six frames of one second and the checkpoint at
    index 7, which the sixth frame lands on. *)
Lemma reported_iff_landed_witness :
  let fs := repeat (mkFrame true false 1) 6 in
  let cps := Checkpoints.getCheckpointIndices (Z.of_nat (length demo_path)) in
  onReachCheckpoint (indexOf cps 7) ∈ callbacks (run demo_path fs mount) <->
  exists fs1 f fs2,
    fs = fs1 ++ f :: fs2 /\ lands demo_path 7 f (final demo_path fs1 mount).
Proof.
  apply (reported_iff_landed demo_path (repeat (mkFrame true false 1) 6) 7).
  vm_compute. left.
Defined.

(** The ride of fifty frames of one second passes the checkpoint at index
    23 without landing on it, and does not report it. *)
Example demo_checkpoint_skipped :
  reaches 2 (run demo_path (repeat (mkFrame true false 1) 50) mount) = 0%nat.
Proof. vm_compute. reflexivity. Qed.


(** X21 for the checkpoint at position 0 and six frames of one second. *)
Lemma each_checkpoint_once_witness :
  (reaches 0 (run demo_path (repeat (mkFrame true false 1) 6) mount) <= 1)%nat.
Proof.
  apply (each_checkpoint_once demo_path 0
           (repeat (mkFrame true false 1) 6) mount).
  repeat constructor; unfold Qle; simpl; lia.
Defined.

(** X13 at the start tile. *)
Lemma createInitialState_types_witness :
  let t := mkTile 0 14 BuildingType.Road in
  (buildingType t = BuildingType.Road <->
   isPath (path (createInitialState rnd_hi)) 0 14 = true) /\
  buildingType t <> BuildingType.Industrial /\
  ((12 <= 0)%nat -> (14 <= 2)%nat ->
   isPath (path (createInitialState rnd_hi)) 0 14 = false ->
   buildingType t = BuildingType.None).
Proof.
  apply (createInitialState_types rnd_hi 0 14 (mkTile 0 14 BuildingType.Road)).
  vm_compute. reflexivity.
Defined.

(** X16 for the road at the start tile and two clicks with building
    tools. *)
Lemma buildings_stay_witness :
  buildingType <$>
    tileAt (clicks demo_path
              [mkClick BuildingType.Park 0 14;
               mkClick BuildingType.Commercial 0 14]
              (grid (createInitialState rnd_hi))) 0 14
  = Some BuildingType.Road.
Proof.
  apply (buildings_stay demo_path
           [mkClick BuildingType.Park 0 14;
            mkClick BuildingType.Commercial 0 14]
           (grid (createInitialState rnd_hi)) 0 14
           (mkTile 0 14 BuildingType.Road)).
  - repeat constructor; discriminate.
  - vm_compute. reflexivity.
  - discriminate.
Defined.

(** X17 at the corner tile (0,0), with the park tool. *)
Lemma bulldoze_then_build_witness :
  let i := createInitialState rnd_hi in
  let g := clicks (path i) demo_clicks (grid i) in
  let g' := clicks (path i)
              [mkClick BuildingType.None 0 0; mkClick BuildingType.Park 0 0]
              g in
  buildingType <$> tileAt g' 0 0 = Some BuildingType.Park /\
  forall x' y', (x', y') <> (0, 0)%nat -> tileAt g' x' y' = tileAt g x' y'.
Proof.
  apply (bulldoze_then_build rnd_hi demo_clicks BuildingType.Park 0 0).
  - unfold GRID_SIZE. lia.
  - unfold GRID_SIZE. lia.
  - vm_compute. reflexivity.
  - discriminate.
Defined.

(** X20 after the six frames that reach the first checkpoint. *)
Lemma paused_until_dismissed_witness :
  let i := createInitialState rnd_hi in
  let s := App.steps demo_path (repeat (App.AnimationFrame true 1) 6)
             (App.init i) in
  let inputs := [App.AnimationFrame true 1; App.TileClick 0 0;
                 App.SelectTool BuildingType.Park; App.AnimationFrame true 2] in
  App.cyclist (App.steps demo_path inputs s) = App.cyclist s /\
  App.activeCheckpointIndex (App.steps demo_path inputs s) =
  App.activeCheckpointIndex s.
Proof.
  apply (paused_until_dismissed demo_path (createInitialState rnd_hi)
           (repeat (App.AnimationFrame true 1) 6)
           [App.AnimationFrame true 1; App.TileClick 0 0;
            App.SelectTool BuildingType.Park; App.AnimationFrame true 2]).
  - vm_compute. discriminate.
  - reflexivity.
Defined.

End FurtherRuns.

Section ShortPaths.

Import Checkpoints.
Local Open Scope Z_scope.

(** X22.  For a path of any length [n], [getCheckpointIndices] returns
    five indices that never decrease and lie between 0 and five sixths of
    [n]; they increase strictly exactly when [n] is at least 5, and they
    leave out index 0 exactly when [n] is at least 6. *)
Theorem getCheckpointIndices_any_length (n : nat) :
  exists a1 a2 a3 a4 a5 : Z,
    getCheckpointIndices (Z.of_nat n) = [a1; a2; a3; a4; a5] /\
    (0 <= a1 <= a2 /\ a2 <= a3 <= a4 /\ a4 <= a5 /\ 6 * a5 <= 5 * Z.of_nat n) /\
    (a1 < a2 /\ a2 < a3 /\ a3 < a4 /\ a4 < a5 <-> (5 <= n)%nat) /\
    (0 < a1 <-> (6 <= n)%nat).
Proof.
  rewrite getCheckpointIndices_list. do 5 eexists. split; [reflexivity|].
  destruct n as [|[|[|[|[|[|n]]]]]].
  1-6: vm_compute; repeat split; intros; try lia; try discriminate;
    repeat match goal with H : _ /\ _ |- _ => destruct H end;
    try discriminate.
  set (m := Z.of_nat (S (S (S (S (S (S n))))))).
  assert (6 <= m) by lia. clearbody m.
  assert ((6 <= S (S (S (S (S (S n))))))%nat) by lia.
  repeat split; intros; Z.div_mod_to_equations; lia.
Qed.

End ShortPaths.
